(** * instantiateAddons: ordering and instantiation of child addons

    A shallow embedding of [lib/models/instantiate-addons.js] together with
    the properties its specification states about it.

    The JavaScript function threads three kinds of effect: it mutates the
    descriptor objects it is handed, it talks to collaborators (the file
    system, the module loader, the constructors of the addons, the error
    sink of the parent) and it may throw.  The embedding makes all three
    explicit: a [world] holds the descriptor objects and the functions
    already loaded, a chronological [log] records every collaborator
    interaction, and results live in [error + _].  The calls to the logger
    and to heimdall only observe; they are left out. *)

From Stdlib Require Import List String Ascii Bool Arith Lia ZArith.
From Stdlib Require Import Relations ListDec Permutation.
Import ListNotations.
Open Scope string_scope.
Open Scope list_scope.

(** ** Errors *)

(** Values that reach the caller through [throw]. *)
Inductive error : Type :=
| TypeError (msg : string)      (* raised by the engine, e.g. a property read on undefined *)
| CycleError (node : string)    (* raised by the ordering graph *)
| SilentError (msg : string)    (* [new SilentError(msg)] *)
| Thrown (what : string).       (* any value thrown by a collaborator or by addon code *)

(** ** Generic list helpers *)

Definition mem (k : string) (l : list string) : bool := existsb (String.eqb k) l.

(** Index of the first occurrence of [k] in [l]; the length of [l] when absent. *)
Fixpoint position (k : string) (l : list string) : nat :=
  match l with
  | [] => 0
  | x :: r => if String.eqb x k then 0 else S (position k r)
  end.

(** [a] occurs in [l] strictly before [b]. *)
Definition precedes (l : list string) (a b : string) : Prop :=
  In a l /\ In b l /\ position a l < position b l.

Fixpoint lookup {A : Type} (k : string) (l : list (string * A)) : option A :=
  match l with
  | [] => None
  | (x, a) :: r => if String.eqb x k then Some a else lookup k r
  end.

(** [l] is an initial segment of [l']. *)
Definition prefix {A : Type} (l l' : list A) : Prop := exists r, l' = l ++ r.

(** ** The ordering graph *)

Module DAGMap.

Section Payload.

Variable T : Type.

(** Modelled from the spec: the ordering graph of section 4.1.  The package
    [dag-map] that the source instantiates with [new DAGMap()] is not part of
    the source tree, so [add] and [each] follow the specification: [add]
    registers a node; a [before] constraint from A to B is an edge A -> B, an
    [after] constraint from A to B is an edge B -> A; names that only occur in
    constraints are recorded as ordering hints and have no payload.  Added
    nodes are kept in the order of their first [add]. *)
Record graph : Type := mk {
  added  : list (string * T);          (* nodes with their payload, in the order they were added *)
  hinted : list string;                (* constraint targets not added so far *)
  edges  : list (string * string)      (* (a, b): a must come before b *)
}.

Definition empty : graph := {| added := []; hinted := []; edges := [] |}.

Definition nodes (g : graph) : list string := map fst (added g) ++ hinted g.

Definition mention (k : string) (g : graph) : graph :=
  if mem k (nodes g) then g
  else {| added := added g; hinted := hinted g ++ [k]; edges := edges g |}.

Definition addEdge (a b : string) (g : graph) : graph :=
  let g' := mention b (mention a g) in
  {| added := added g'; hinted := hinted g'; edges := edges g' ++ [(a, b)] |}.

Fixpoint set_payload (k : string) (x : T) (l : list (string * T)) : list (string * T) :=
  match l with
  | [] => []
  | (y, v) :: r => if String.eqb y k then (y, x) :: r else (y, v) :: set_payload k x r
  end.

Definition register (k : string) (x : T) (g : graph) : graph :=
  if mem k (map fst (added g))
  then {| added := set_payload k x (added g); hinted := hinted g; edges := edges g |}
  else {| added := added g ++ [(k, x)];
          hinted := remove string_dec k (hinted g);
          edges := edges g |}.

(** Modelled from the spec: [add(name, payload, beforeNames, afterNames)]. *)
Definition add (k : string) (x : T) (before after : list string) (g : graph) : graph :=
  let g1 := register k x g in
  let g2 := fold_left (fun h b => addEdge k b h) before g1 in
  fold_left (fun h a => addEdge a k h) after g2.

Definition edge (g : graph) (a b : string) : Prop := In (a, b) (edges g).

Definition preds (g : graph) (k : string) : list string :=
  map fst (filter (fun e => String.eqb (snd e) k) (edges g)).

(** A node is eligible when none of its predecessors is still pending. *)
Definition ready (g : graph) (pending : list string) (k : string) : bool :=
  negb (existsb (fun p => mem p pending) (preds g k)).

(** When no pending node is eligible, walking back along unresolved
    predecessors for as many steps as there are pending nodes ends on a
    cycle; that node is the one the error names. *)
Definition blocker (g : graph) (pending : list string) (k : string) : string :=
  match find (fun p => mem p pending) (preds g k) with
  | Some p => p
  | None => k
  end.

Fixpoint back (g : graph) (pending : list string) (n : nat) (k : string) : string :=
  match n with
  | O => k
  | S n' => back g pending n' (blocker g pending k)
  end.

Definition culprit (g : graph) (pending : list string) : string :=
  match pending with
  | [] => EmptyString
  | k :: _ => back g pending (List.length pending) k
  end.

(** Modelled from the spec: the deterministic topological sort.  [n] is the
    number of nodes still to emit; each round emits the first pending node,
    in the order the nodes were added, that has no pending predecessor. *)
Fixpoint sort (g : graph) (n : nat) (pending : list string) : error + list string :=
  match n with
  | O => inr []
  | S n' =>
      match find (ready g pending) pending with
      | Some k =>
          match sort g n' (remove string_dec k pending) with
          | inr l => inr (k :: l)
          | inl e => inl e
          end
      | None => inl (CycleError (culprit g pending))
      end
  end.

Definition resolve (g : graph) : error + list string :=
  sort g (List.length (nodes g)) (nodes g).

(** Modelled from the spec: [each] visits the resolved sequence of
    (name, payload) pairs; the payload is absent for a name that was only
    ever a constraint target. *)
Definition each (g : graph) : error + list (string * option T) :=
  match resolve g with
  | inr l => inr (map (fun k => (k, lookup k (added g))) l)
  | inl e => inl e
  end.

Definition acyclic (g : graph) : Prop := forall k, ~ clos_trans string (edge g) k k.

(** Every edge joins two nodes of the graph and no node occurs twice. *)
Definition wf (g : graph) : Prop :=
  NoDup (nodes g) /\ forall a b, edge g a b -> In a (nodes g) /\ In b (nodes g).

(** No pending node is eligible. *)
Definition stuck (g : graph) (pending : list string) : Prop :=
  forall k, In k pending -> ready g pending k = false.

End Payload.

Arguments added {T} _.
Arguments hinted {T} _.
Arguments edges {T} _.
Arguments empty {T}.
Arguments nodes {T} _.
Arguments mention {T} _ _.
Arguments addEdge {T} _ _ _.
Arguments set_payload {T} _ _ _.
Arguments register {T} _ _ _.
Arguments add {T} _ _ _ _ _.
Arguments edge {T} _ _ _.
Arguments preds {T} _ _.
Arguments ready {T} _ _ _.
Arguments blocker {T} _ _ _.
Arguments back {T} _ _ _ _.
Arguments culprit {T} _ _.
Arguments sort {T} _ _ _.
Arguments resolve {T} _.
Arguments each {T} _.
Arguments acyclic {T} _.
Arguments wf {T} _.
Arguments stuck {T} _ _.

End DAGMap.

(** ** JavaScript values and the data handed to the function *)

(** A property slot: never written, written with [null], or holding a value. *)
Inductive jsval (A : Type) : Type :=
| undefined
| null
| val (a : A).

Arguments undefined {A}.
Arguments null {A}.
Arguments val {A} _.

(** The [ember-addon] entry of a package.json. *)
Record emberAddonConfig : Type := {
  ea_main : option string;
  before  : list string;
  after   : list string
}.

(** The package.json object of an addon: the two keys the function reads and
    the rest of the manifest. *)
Record packageJson : Type := {
  main         : option string;
  ember_addon  : option emberAddonConfig;
  other_fields : list (string * string)
}.

(** An AddonInfo: [name], [path] and [pkg]. *)
Record addonInfo : Type := {
  name : string;
  path : string;
  pkg  : packageJson
}.

(** The [addonPackages] object: its entries in [Object.keys] order. *)
Definition descriptors : Type := list (string * addonInfo).

(** [parent.name] is a field or a function to call. *)
Inductive nameSlot : Type :=
| NameField (s : string)
| NameFunction (f : unit -> string).

Record parentObject : Type := {
  parent_name : nameSlot;
  ui : bool                       (* whether [parent.ui] is there to report to *)
}.

(** The project is passed through unexamined and may be undefined. *)
Definition projectObject : Type := option string.

(** What [new AddonConstructor(parent, project)] hands back before the
    function touches it: the name of the instance and, when the instance has
    an [initializeAddons] method, what calling it does (it throws, or it
    returns after leaving the names of the children in [addon.addons]). *)
Record fresh : Type := {
  fresh_name : string;
  fresh_initializeAddons : option (error + list string)
}.

(** The body of a constructor, as a function of what it can see: the [root]
    and [pkg] of its prototype, the parent and the project. *)
Definition body : Type :=
  jsval string -> jsval packageJson -> parentObject -> projectObject -> error + fresh.

Record metaRecord : Type := {
  modulePath : string;
  lookupDuration : Z;
  initializeIn : Z
}.

(** A constructor function: the two prototype slots the function writes,
    its [_meta_] property and its body. *)
Record constructorFn : Type := {
  proto_root : jsval string;
  proto_pkg  : jsval packageJson;
  _meta_     : jsval metaRecord;
  construct  : body
}.

(** A plain object exported by an addon: [root] and [pkg] when it has them
    as own properties, and the behaviour of the class built from it. *)
Record addonObject : Type := {
  own_root  : option (jsval string);
  own_pkg   : option (jsval packageJson);
  behaviour : body
}.

(** What [require(mainRealPath)] returns, by [typeof addonModule ===
    'function'].  [Callable] is the callable variant: a function that can be
    invoked with [new] and has a prototype object, as every function declared
    with [function] or [class] has.  A function without a prototype object
    (arrow, async, bound) is outside the model: line 96 reads a property of
    its missing prototype and throws. *)
Inductive moduleValue : Type :=
| Callable (f : constructorFn)
| Declarative (o : addonObject).

(** A finished instance, as pushed on [addons]. *)
Record addon : Type := {
  addon_name  : string;
  addons      : list string;
  constructor : constructorFn
}.

(** ** Collaborators *)

(** The host: Node's [path] and [fs], the module loader and the clock.
    [now n] is [Date.now()] after [n] logged interactions. *)
Record host : Type := {
  extname      : string -> string;
  join         : string -> string -> string;
  dirname      : string -> string;
  realpathSync : string -> error + string;
  require      : string -> error + moduleValue;
  now          : nat -> Z
}.

(** Interactions with the collaborators, in the order they happen. *)
Inductive event : Type :=
| GraphNew                                   (* [new DAGMap()] *)
| GraphAdd (key : string)                    (* [graph.add(key, ...)] *)
| GraphEach                                  (* [graph.each(...)] *)
| Realpath (p : string)                      (* [fs.realpathSync(p)] *)
| Load (p : string)                          (* [require(p)] of an entry point, line 90 *)
| New (key : string) (thrown : option error) (* [new AddonConstructor(...)] for descriptor [key] *)
| WriteError (e : error)                     (* [parent.ui.writeError(e)] *)
| InitializeAddons (key : string).           (* [addon.initializeAddons()] *)

(** The mutable objects the function shares with its caller: the descriptor
    objects (a graph payload is a reference to one of them, represented by
    its key), the functions of the module cache whose prototype has been
    written, and the log. *)
Record world : Type := {
  packages : descriptors;
  loaded   : list (string * constructorFn);
  log      : list event
}.

(** ** A state and exception monad; the state survives a throw *)

Definition M (A : Type) : Type := world -> (error + A) * world.

Definition ret {A : Type} (a : A) : M A := fun w => (inr a, w).

Definition bind {A B : Type} (c : M A) (k : A -> M B) : M B :=
  fun w =>
    match c w with
    | (inr a, w') => k a w'
    | (inl e, w') => (inl e, w')
    end.

Definition throw {A : Type} (e : error) : M A := fun w => (inl e, w).

Definition lift {A : Type} (r : error + A) : M A := fun w => (r, w).

Definition get : M world := fun w => (inr w, w).

Definition emit (ev : event) : M unit :=
  fun w => (inr tt, {| packages := packages w; loaded := loaded w; log := log w ++ [ev] |}).

Notation "x <- c ;; k" := (bind c (fun x => k))
  (at level 61, c at next level, right associativity).
Notation "c ;;; k" := (bind c (fun _ => k))
  (at level 61, right associativity).

Definition modify (f : world -> world) : M unit := fun w => (inr tt, f w).

(** ** The function *)

(** [typeof parent.name === 'function' ? parent.name() : parent.name] *)
Definition parentName (parent : parentObject) : string :=
  match parent_name parent with
  | NameFunction f => f tt
  | NameField s => s
  end.

(** Truthiness of a value that is a string when it is there. *)
Definition truthy (s : option string) : bool :=
  match s with
  | Some s => negb (String.eqb s "")
  | None => false
  end.

Definition truthy_root (v : jsval string) : bool :=
  match v with
  | val s => negb (String.eqb s "")
  | _ => false
  end.

(** An object is always truthy. *)
Definition truthy_pkg (v : jsval packageJson) : bool :=
  match v with
  | val _ => true
  | _ => false
  end.

(** Lines 71 to 77: the relative entry point computed from a package.json. *)
Definition resolveMain (h : host) (p : packageJson) : string :=
  let configured :=
    match ember_addon p with
    | Some config => ea_main config
    | None => None
    end in
  let main := if truthy configured then configured else main p in
  match main with
  | None => "index.js"
  | Some m =>
      if (String.eqb m "" || String.eqb m "." || String.eqb m "./")%bool then "index.js"
      else if String.eqb (extname h m) "" then (m ++ ".js")%string
      else m
  end.

(** Line 82. *)
Definition mainPath (h : host) (addonInfo : addonInfo) : string :=
  join h (path addonInfo) (resolveMain h (pkg addonInfo)).

(** Line 80: [addonInfo.pkg.main = main]. *)
Definition set_main (m : string) (p : packageJson) : packageJson :=
  {| main := Some m; ember_addon := ember_addon p; other_fields := other_fields p |}.

Definition write_main (m : string) (i : addonInfo) : addonInfo :=
  {| name := name i; path := path i; pkg := set_main m (pkg i) |}.

Fixpoint update (key : string) (f : addonInfo -> addonInfo) (ds : descriptors) : descriptors :=
  match ds with
  | [] => []
  | (k, i) :: r => if String.eqb k key then (k, f i) :: r else (k, i) :: update key f r
  end.

Definition store (key : string) (f : addonInfo -> addonInfo) : M unit :=
  modify (fun w => {| packages := update key f (packages w); loaded := loaded w; log := log w |}).

(** [require(p)]: a function whose prototype was written earlier in the call
    comes back as it was left. *)
Definition load (h : host) (w : world) (p : string) : error + moduleValue :=
  match lookup p (loaded w) with
  | Some f => inr (Callable f)
  | None => require h p
  end.

Definition remember (p : string) (addonModule : moduleValue) (f : constructorFn) : M unit :=
  match addonModule with
  | Callable _ =>
      modify (fun w => {| packages := packages w; loaded := (p, f) :: loaded w; log := log w |})
  | Declarative _ => ret tt
  end.

(** [Object.assign({ root: mainDir, pkg: addonInfo.pkg }, addonModule)] *)
Definition assign (mainDir : string) (p : packageJson) (o : addonObject) : addonObject :=
  {| own_root := match own_root o with Some v => Some v | None => Some (val mainDir) end;
     own_pkg := match own_pkg o with Some v => Some v | None => Some (val p) end;
     behaviour := behaviour o |}.

(** Modelled from the spec: [Addon.extend] of [./addon], which is not part of
    the source tree.  The declared fields extend the shared base type, giving
    a new constructible type. *)
Definition extend (o : addonObject) : constructorFn :=
  {| proto_root := match own_root o with Some v => v | None => undefined end;
     proto_pkg := match own_pkg o with Some v => v | None => undefined end;
     _meta_ := undefined;
     construct := behaviour o |}.

Definition set_meta (m : metaRecord) (f : constructorFn) : constructorFn :=
  {| proto_root := proto_root f; proto_pkg := proto_pkg f; _meta_ := val m; construct := construct f |}.

(** Lines 93 to 108. *)
Definition AddonConstructor (addonModule : moduleValue) (mainDir : string)
    (p : packageJson) (mainRealPath : string) : constructorFn :=
  let chosen :=
    match addonModule with
    | Callable f =>
        {| proto_root := if truthy_root (proto_root f) then proto_root f else val mainDir;
           proto_pkg := if truthy_pkg (proto_pkg f) then proto_pkg f else val p;
           _meta_ := _meta_ f;
           construct := construct f |}
    | Declarative o => extend (assign mainDir p o)
    end in
  set_meta {| modulePath := mainRealPath; lookupDuration := 0; initializeIn := 0 |} chosen.

Definition constructorMessage (addonInfo : addonInfo) : string :=
  ("An error occurred in the constructor for " ++ name addonInfo ++ " at " ++ path addonInfo)%string.

(** Lines 55 to 131: the work done for one descriptor. *)
Definition initialize (h : host) (parent : parentObject) (project : projectObject)
    (key : string) (addonInfo : addonInfo) : M addon :=
  w <- get ;;
  let start := now h (List.length (log w)) in
  let main := resolveMain h (pkg addonInfo) in
  store key (write_main main) ;;;
  let manifest := set_main main (pkg addonInfo) in
  let mainPath := mainPath h addonInfo in
  emit (Realpath mainPath) ;;;
  mainRealPath <- lift (realpathSync h mainPath) ;;
  emit (Load mainRealPath) ;;;
  w1 <- get ;;
  addonModule <- lift (load h w1 mainRealPath) ;;
  let mainDir := dirname h mainRealPath in
  let C := AddonConstructor addonModule mainDir manifest mainRealPath in
  remember mainRealPath addonModule C ;;;
  match construct C (proto_root C) (proto_pkg C) parent project with
  | inl e =>
      emit (New key (Some e)) ;;;
      (if ui parent then emit (WriteError e) else ret tt) ;;;
      throw (SilentError (constructorMessage addonInfo))
  | inr a =>
      emit (New key None) ;;;
      kids <- match fresh_initializeAddons a with
              | Some r => emit (InitializeAddons key) ;;; lift r
              | None => ret []
              end ;;
      w2 <- get ;;
      let C' := set_meta {| modulePath := mainRealPath; lookupDuration := 0;
                            initializeIn := now h (List.length (log w2)) - start |} C in
      remember mainRealPath addonModule C' ;;;
      ret {| addon_name := fresh_name a; addons := kids; constructor := C' |}
  end.

(** The callback of [graph.each]: entries without a payload are skipped. *)
Definition visit (h : host) (parent : parentObject) (project : projectObject)
    (entry : string * option string) : M (option addon) :=
  w <- get ;;
  match snd entry with
  | None => ret None
  | Some ref =>
      match lookup ref (packages w) with
      | None => ret None
      | Some addonInfo => a <- initialize h parent project ref addonInfo ;; ret (Some a)
      end
  end.

Fixpoint forEach (h : host) (parent : parentObject) (project : projectObject)
    (order : list (string * option string)) : M (list addon) :=
  match order with
  | [] => ret []
  | entry :: rest =>
      r <- visit h parent project entry ;;
      l <- forEach h parent project rest ;;
      ret (match r with Some a => a :: l | None => l end)
  end.

(** Lines 45 to 50: one [graph.add] per key; the payload is the descriptor
    object itself, that is, a reference to the entry under that key. *)
Fixpoint addAll (entries : descriptors) (graph : DAGMap.graph string) : M (DAGMap.graph string) :=
  match entries with
  | [] => ret graph
  | (key, addonInfo) :: rest =>
      match ember_addon (pkg addonInfo) with
      | None => throw (TypeError "Cannot read properties of undefined (reading 'before')")
      | Some emberAddonConfig =>
          emit (GraphAdd key) ;;;
          addAll rest (DAGMap.add key key (before emberAddonConfig) (after emberAddonConfig) graph)
      end
  end.

(** The graph [addAll] builds when no [graph.add] throws. *)
Fixpoint graphOf (entries : descriptors) (graph : DAGMap.graph string) : DAGMap.graph string :=
  match entries with
  | [] => graph
  | (key, addonInfo) :: rest =>
      match ember_addon (pkg addonInfo) with
      | None => graphOf rest graph
      | Some emberAddonConfig =>
          graphOf rest (DAGMap.add key key (before emberAddonConfig) (after emberAddonConfig) graph)
      end
  end.

Definition instantiateAddons (h : host) (parent : parentObject) (project : projectObject)
    (addonPackages : jsval descriptors) : (error + list addon) * world :=
  let object := match addonPackages with val o => o | _ => [] end in
  let addonNames := map fst object in
  let w0 := {| packages := object; loaded := []; log := [] |} in
  match addonNames with
  | [] => (inr [], w0)
  | _ :: _ =>
      (emit GraphNew ;;;
       graph <- addAll object DAGMap.empty ;;
       emit GraphEach ;;;
       order <- lift (DAGMap.each graph) ;;
       forEach h parent project order) w0
  end.

(** ** The reading of the specification, for comparison *)

(** The entry point as the specification words it: the ordering-config [main]
    when present, else the top-level [main]; absent, [.] or [./] give
    [index.js]; a [main] without extension gets [.js] appended. *)
Definition spec_resolveMain (h : host) (p : packageJson) : string :=
  let selected :=
    match ember_addon p with
    | Some {| ea_main := Some m |} => Some m
    | _ => main p
    end in
  match selected with
  | None => "index.js"
  | Some m =>
      if (String.eqb m "." || String.eqb m "./")%bool then "index.js"
      else if String.eqb (extname h m) "" then (m ++ ".js")%string
      else m
  end.

(** An empty [main] read as no [main] at all. *)
Definition drop_empty (s : option string) : option string :=
  match s with
  | Some m => if String.eqb m "" then None else Some m
  | None => None
  end.

Definition without_empty_main (p : packageJson) : packageJson :=
  {| main := drop_empty (main p);
     ember_addon :=
       match ember_addon p with
       | Some c => Some {| ea_main := drop_empty (ea_main c); before := before c; after := after c |}
       | None => None
       end;
     other_fields := other_fields p |}.


(** The constraints a descriptor set declares: [a] must come before [b]. *)
Definition constraint (ds : descriptors) (a b : string) : Prop :=
  exists key info config,
    In (key, info) ds /\ ember_addon (pkg info) = Some config /\
    ((a = key /\ In b (before config)) \/ (b = key /\ In a (after config))).

(** The descriptors in the order their constructors were invoked. *)
Fixpoint constructed (l : list event) : list string :=
  match l with
  | [] => []
  | New key _ :: r => key :: constructed r
  | _ :: r => constructed r
  end.

(** The errors handed to the sink of the parent, in order. *)
Fixpoint reported (l : list event) : list error :=
  match l with
  | [] => []
  | WriteError e :: r => e :: reported r
  | _ :: r => reported r
  end.

(** The names of a resolved sequence that carry a payload. *)
Fixpoint present {A : Type} (order : list (string * option A)) : list string :=
  match order with
  | [] => []
  | (k, Some _) :: r => k :: present r
  | (_, None) :: r => present r
  end.

(** The constructors that threw, with what they threw. *)
Fixpoint failures (l : list event) : list (string * error) :=
  match l with
  | [] => []
  | New key (Some e) :: r => (key, e) :: failures r
  | _ :: r => failures r
  end.

(** Every descriptor carries an [ember-addon] entry. *)
Definition configured (ds : descriptors) : Prop :=
  Forall (fun entry => ember_addon (pkg (snd entry)) <> None) ds.

(** Two descriptor objects that differ at most in [pkg.main]. *)
Definition same_but_main (i j : addonInfo) : Prop :=
  name i = name j /\ path i = path j /\
  ember_addon (pkg i) = ember_addon (pkg j) /\
  other_fields (pkg i) = other_fields (pkg j).

Definition logged (w : world) (evs : list event) : world :=
  {| packages := packages w; loaded := loaded w; log := log w ++ evs |}.

(** The same keys in the same order, each object changed at most in
    [pkg.main]. *)
Definition frame (before_call after_call : descriptors) : Prop :=
  Forall2 (fun x y => fst x = fst y /\ same_but_main (snd x) (snd y)) before_call after_call.

(** Nothing was reported and no constructor threw. *)
Definition quiet_events (evs : list event) : Prop :=
  failures evs = [] /\ reported evs = [].

(** The events end with the constructor of [key] throwing [e], followed by
    the report to the sink of the parent when there is one. *)
Definition aborted_by (parent : parentObject) (key : string) (e : error) (evs : list event) : Prop :=
  exists pre,
    evs = pre ++ New key (Some e) :: (if ui parent then [WriteError e] else []) /\
    quiet_events pre.

(** The events of a call up to and including [graph.each]. *)
Definition header (ds : descriptors) : list event :=
  GraphNew :: map GraphAdd (map fst ds) ++ [GraphEach].

(** The paths handed to [fs.realpathSync], in order. *)
Fixpoint resolved (l : list event) : list string :=
  match l with
  | [] => []
  | Realpath q :: r => q :: resolved r
  | _ :: r => resolved r
  end.

(** The entry points handed to [require] on line 90, in order.  The fixed
    [require('./addon')] of line 99 is not an entry point and is not logged. *)
Fixpoint required (l : list event) : list string :=
  match l with
  | [] => []
  | Load p :: r => p :: required r
  | _ :: r => required r
  end.

(** What [fs.realpathSync] returned for the paths it was given and did not
    throw on, in order. *)
Definition canonical (h : host) (l : list event) : list string :=
  flat_map (fun q => match realpathSync h q with inr p => [p] | inl _ => [] end) (resolved l).

(** The mapping after line 80 has run for the descriptors in [visited]. *)
Definition written (h : host) (visited : list string) (ds : descriptors) : descriptors :=
  map (fun entry =>
         if mem (fst entry) visited
         then (fst entry, write_main (resolveMain h (pkg (snd entry))) (snd entry))
         else entry) ds.

(** A clock that never runs backwards. *)
Definition monotone (clock : nat -> Z) : Prop :=
  forall n m, n <= m -> (clock n <= clock m)%Z.

(** ** A small host to run the function on *)

Module Sample.

(** Stand-ins for Node's [path] functions on plain relative POSIX paths. *)
Fixpoint ext_rev (r acc : list ascii) : list ascii :=
  match r with
  | [] => []
  | c :: r' =>
      if Ascii.eqb c "/" then []
      else if Ascii.eqb c "." then
        match r' with
        | [] => []
        | d :: _ => if Ascii.eqb d "/" then [] else c :: acc
        end
      else ext_rev r' (c :: acc)
  end.

Definition posix_extname (s : string) : string :=
  string_of_list_ascii (ext_rev (rev (list_ascii_of_string s)) []).

Definition posix_join (a b : string) : string := (a ++ "/" ++ b)%string.

Fixpoint drop_segment (r : list ascii) : list ascii :=
  match r with
  | [] => []
  | c :: r' => if Ascii.eqb c "/" then r' else drop_segment r'
  end.

Definition posix_dirname (s : string) : string :=
  string_of_list_ascii (rev (drop_segment (rev (list_ascii_of_string s)))).

(** A constructor that returns an instance called [n] without children. *)
Definition plain (n : string) : body :=
  fun _ _ _ _ => inr {| fresh_name := n; fresh_initializeAddons := None |}.

(** A constructor that throws [e]. *)
Definition failing (e : error) : body := fun _ _ _ _ => inl e.

(** A constructor whose instance has an [initializeAddons] method doing [r]. *)
Definition nested (n : string) (r : error + list string) : body :=
  fun _ _ _ _ => inr {| fresh_name := n; fresh_initializeAddons := Some r |}.

Definition fn (b : body) : moduleValue :=
  Callable {| proto_root := undefined; proto_pkg := undefined; _meta_ := undefined; construct := b |}.

(** A file system given by the files that exist, each with its module. *)
Definition disk (files : list (string * moduleValue)) : host :=
  {| extname := posix_extname;
     join := posix_join;
     dirname := posix_dirname;
     realpathSync := fun p =>
       match lookup p files with
       | Some _ => inr p
       | None => inl (Thrown ("ENOENT: no such file or directory, " ++ p)%string)
       end;
     require := fun p =>
       match lookup p files with
       | Some m => inr m
       | None => inl (Thrown ("Cannot find module " ++ p)%string)
       end;
     now := fun n => Z.of_nat n |}.

Definition config (b a : list string) : option emberAddonConfig :=
  Some {| ea_main := None; before := b; after := a |}.

Definition info (n : string) (m : option string) (c : option emberAddonConfig) : string * addonInfo :=
  (n, {| name := n; path := ("/addons/" ++ n)%string;
         pkg := {| main := m; ember_addon := c; other_fields := [] |} |}).

Definition app : parentObject := {| parent_name := NameField "app"; ui := true |}.

Definition quiet : parentObject := {| parent_name := NameFunction (fun _ => "app"); ui := false |}.

End Sample.

(** * Properties *)

(** ** Lists of names *)

Lemma mem_In (k : string) (l : list string) : mem k l = true <-> In k l.
Proof.
  unfold mem. rewrite existsb_exists. split.
  - intros [x [Hx He]]. apply String.eqb_eq in He. now subst.
  - intros H. exists k. split; [assumption | apply String.eqb_refl].
Qed.

Lemma mem_false (k : string) (l : list string) : mem k l = false <-> ~ In k l.
Proof.
  rewrite <- mem_In. destruct (mem k l); split; intros; congruence.
Qed.

Lemma position_head (k : string) (l : list string) : position k (k :: l) = 0.
Proof. simpl. now rewrite String.eqb_refl. Qed.

Lemma position_tail (k x : string) (l : list string) :
  x <> k -> position k (x :: l) = S (position k l).
Proof. intros H. simpl. now destruct (String.eqb_spec x k). Qed.

Lemma precedes_irrefl (l : list string) (a : string) : ~ precedes l a a.
Proof. intros (_ & _ & H). lia. Qed.

Lemma precedes_trans (l : list string) (a b c : string) :
  precedes l a b -> precedes l b c -> precedes l a c.
Proof. intros (Ha & _ & H1) (_ & Hc & H2). repeat split; try assumption. lia. Qed.

Lemma precedes_tc (R : relation string) (l : list string) :
  (forall a b, R a b -> precedes l a b) ->
  forall a b, clos_trans string R a b -> precedes l a b.
Proof.
  intros H a b Hab. induction Hab as [a b Hab | a b c _ IH1 _ IH2].
  - now apply H.
  - eapply precedes_trans; eassumption.
Qed.

Lemma remove_length_NoDup (k : string) (l : list string) :
  NoDup l -> In k l -> S (List.length (remove string_dec k l)) = List.length l.
Proof.
  induction 1 as [|x r Hx Hr IH]; simpl; [tauto|].
  intros [->|Hk].
  - destruct (string_dec k k) as [_|Hn]; [|congruence].
    now rewrite notin_remove.
  - destruct (string_dec k x) as [->|Hn]; [contradiction|].
    simpl. now rewrite IH.
Qed.

Lemma remove_NoDup (k : string) (l : list string) :
  NoDup l -> NoDup (remove string_dec k l).
Proof.
  induction 1 as [|x r Hx Hr IH]; simpl; [constructor|].
  destruct (string_dec k x); [assumption|].
  constructor; [|assumption]. intros H. apply in_remove in H. tauto.
Qed.

Lemma remove_position (k a b : string) (l : list string) :
  a <> k -> b <> k -> In b l ->
  position a l < position b l ->
  position a (remove string_dec k l) < position b (remove string_dec k l).
Proof.
  intros Ha Hb. induction l as [|x r IH]; simpl; [tauto|].
  intros Hin Hlt.
  destruct (string_dec k x) as [->|Hkx].
  - destruct (String.eqb_spec x a); [congruence|].
    destruct (String.eqb_spec x b); [congruence|].
    apply IH; [destruct Hin; [congruence|assumption] | lia].
  - simpl. destruct (String.eqb_spec x a) as [->|Hxa].
    + destruct (String.eqb_spec a b); lia.
    + destruct (String.eqb_spec x b) as [->|Hxb]; [lia|].
      apply -> Nat.succ_lt_mono. apply IH; [destruct Hin; [congruence|assumption] | lia].
Qed.

Lemma find_first (f : string -> bool) (l : list string) (k u : string) :
  find f l = Some k -> In u l -> position u l < position k l -> f u = false.
Proof.
  induction l as [|x r IH]; simpl; [tauto|].
  destruct (f x) eqn:Hfx.
  - intros [= ->] _. rewrite String.eqb_refl. lia.
  - intros Hk Hin. destruct (String.eqb_spec x u) as [->|Hxu]; [auto|].
    destruct (String.eqb_spec x k) as [->|Hxk]; [lia|].
    intros Hlt. apply IH; [assumption | destruct Hin; [congruence|assumption] | lia].
Qed.

Lemma lookup_None {A : Type} (k : string) (l : list (string * A)) :
  lookup k l = None <-> ~ In k (map fst l).
Proof.
  induction l as [|[x b] r IH]; simpl; [tauto|].
  destruct (String.eqb_spec x k) as [->|Hne].
  - split; [discriminate | tauto].
  - rewrite IH. tauto.
Qed.

Lemma NoDup_app_inv {A : Type} (l1 l2 : list A) :
  NoDup (l1 ++ l2) ->
  NoDup l1 /\ NoDup l2 /\ (forall a, In a l1 -> ~ In a l2).
Proof.
  intros H. split; [now apply NoDup_app_remove_r in H|].
  split; [now apply NoDup_app_remove_l in H|].
  induction l1 as [|x r IH]; simpl in *; [tauto|].
  inversion H as [|? ? Hx Hr]; subst.
  intros a [<-|Ha] Hin.
  - apply Hx. apply in_app_iff. now right.
  - exact (IH Hr a Ha Hin).
Qed.

(** ** The ordering graph *)

Module DAGMapFacts.
Import DAGMap.

Section Resolve.

Variable T : Type.
Variable g : graph T.

Lemma preds_In (p k : string) : In p (preds g k) <-> edge g p k.
Proof.
  unfold preds, edge. rewrite in_map_iff. split.
  - intros [[a b] [Ha Hf]]. apply filter_In in Hf as [Hin He].
    simpl in *. apply String.eqb_eq in He. now subst.
  - intros H. exists (p, k). split; [reflexivity|].
    apply filter_In. split; [assumption | apply String.eqb_refl].
Qed.

Lemma ready_true (pending : list string) (k : string) :
  ready g pending k = true <-> forall p, edge g p k -> ~ In p pending.
Proof.
  unfold ready. rewrite negb_true_iff. split.
  - intros H p Hp Hin.
    assert (existsb (fun q => mem q pending) (preds g k) = true) as E; [|congruence].
    apply existsb_exists. exists p. split; [now apply preds_In | now apply mem_In].
  - intros H. destruct (existsb _ _) eqn:E; [|reflexivity].
    apply existsb_exists in E as [p [Hp Hm]].
    exfalso. apply (H p); [now apply preds_In | now apply mem_In].
Qed.

(** A node that is not eligible has its blocker: a pending predecessor. *)
Lemma blocker_spec (pending : list string) (k : string) :
  ready g pending k = false ->
  edge g (blocker g pending k) k /\ In (blocker g pending k) pending.
Proof.
  unfold ready, blocker. rewrite negb_false_iff. intros E.
  destruct (find _ _) as [p|] eqn:F.
  - apply find_some in F as [Hp Hm]. split; [now apply preds_In | now apply mem_In].
  - apply existsb_exists in E as [p [Hp Hm]].
    apply (find_none _ _ F) in Hp. congruence.
Qed.

Lemma back_In (pending : list string) (n : nat) (k : string) :
  stuck g pending -> In k pending -> In (back g pending n k) pending.
Proof.
  intros Hs. revert k. induction n as [|n IH]; simpl; intros k Hk; [assumption|].
  apply IH. now apply blocker_spec, Hs.
Qed.

Lemma back_path (pending : list string) (n : nat) (k : string) :
  stuck g pending -> In k pending ->
  clos_trans string (edge g) (back g pending (S n) k) k.
Proof.
  intros Hs. revert k. induction n as [|n IH]; intros k Hk.
  - simpl. apply t_step. now apply blocker_spec, Hs.
  - change (back g pending (S (S n)) k) with (back g pending (S n) (blocker g pending k)).
    destruct (blocker_spec pending k (Hs k Hk)) as [He Hb].
    eapply t_trans; [apply IH; assumption | now apply t_step].
Qed.

Lemma back_add (pending : list string) (n m : nat) (k : string) :
  back g pending (n + m) k = back g pending m (back g pending n k).
Proof.
  revert k. induction n as [|n IH]; simpl; intros k; [reflexivity | apply IH].
Qed.

(** Among more walks than there are pending nodes, two end on the same node. *)
Lemma back_repeats (pending : list string) (k : string) :
  stuck g pending -> In k pending ->
  exists i d, 0 < d /\ i + d <= List.length pending /\
              back g pending (i + d) k = back g pending i k.
Proof.
  intros Hs Hk.
  set (walk := map (fun i => back g pending i k) (seq 0 (S (List.length pending)))).
  assert (~ NoDup walk) as Hnd.
  { intros Hnd. apply NoDup_incl_length with (l' := pending) in Hnd.
    - unfold walk in Hnd. rewrite length_map, length_seq in Hnd. lia.
    - intros x Hx. apply in_map_iff in Hx as [i [<- _]]. now apply back_In. }
  apply not_NoDup in Hnd.
  2:{ intros x y. destruct (string_dec x y); [left|right]; assumption. }
  destruct Hnd as (a & l1 & l2 & l3 & E).
  assert (List.length walk = S (List.length pending)) as Hlen.
  { unfold walk. now rewrite length_map, length_seq. }
  assert (forall i, i <= List.length pending -> nth i walk EmptyString = back g pending i k) as Hnth.
  { intros i Hi. unfold walk.
    rewrite nth_indep with (d' := back g pending 0 k)
      by (rewrite length_map, length_seq; lia).
    change (back g pending 0 k) with ((fun i => back g pending i k) 0).
    rewrite map_nth. rewrite seq_nth by lia. reflexivity. }
  rewrite E in Hlen. rewrite !length_app in Hlen. simpl in Hlen. rewrite length_app in Hlen. simpl in Hlen.
  exists (List.length l1), (S (List.length l2)). repeat split; [lia | lia |].
  rewrite <- !Hnth by lia. rewrite E.
  rewrite app_nth2 by lia.
  replace (List.length l1 + S (List.length l2) - List.length l1) with (S (List.length l2)) by lia.
  simpl. rewrite app_nth2 by lia. rewrite Nat.sub_diag. simpl.
  rewrite app_nth2 by lia. rewrite Nat.sub_diag. reflexivity.
Qed.

(** The node the error names lies on a cycle. *)
Lemma culprit_on_cycle (pending : list string) :
  pending <> [] -> stuck g pending ->
  clos_trans string (edge g) (culprit g pending) (culprit g pending).
Proof.
  intros Hne Hs. destruct pending as [|k0 r]; [congruence|].
  unfold culprit. set (pending := k0 :: r) in *.
  assert (In k0 pending) as Hk0 by (now left).
  destruct (back_repeats pending k0 Hs Hk0) as (i & d & Hd & Hle & E).
  set (x := back g pending i k0) in *.
  assert (back g pending d x = x) as Hx.
  { unfold x. now rewrite <- back_add. }
  set (m := List.length pending - i).
  assert (back g pending (List.length pending) k0 = back g pending m x) as Hy.
  { unfold x, m. rewrite <- back_add. f_equal. lia. }
  rewrite Hy.
  assert (back g pending d (back g pending m x) = back g pending m x) as Hp.
  { rewrite <- back_add, Nat.add_comm, back_add. now rewrite Hx. }
  destruct d as [|d]; [lia|].
  rewrite <- Hp at 1. apply back_path; [assumption|].
  apply back_In; [assumption|]. unfold x. now apply back_In.
Qed.

(** *** The sort *)

Lemma sort_fails (n : nat) (pending : list string) (e : error) :
  NoDup pending -> List.length pending = n ->
  sort g n pending = inl e ->
  exists c, e = CycleError c /\ clos_trans string (edge g) c c.
Proof.
  revert pending. induction n as [|n IH]; simpl; intros pending Hnd Hlen; [discriminate|].
  destruct (find (ready g pending) pending) as [k|] eqn:F.
  - destruct (sort g n (remove string_dec k pending)) as [e'|l] eqn:S'; [|discriminate].
    intros [= <-]. apply find_some in F as [Hk _].
    apply (IH (remove string_dec k pending)); [now apply remove_NoDup | | assumption].
    pose proof (remove_length_NoDup k pending Hnd Hk). lia.
  - intros [= <-]. exists (culprit g pending). split; [reflexivity|].
    apply culprit_on_cycle.
    + intros ->. discriminate.
    + intros k Hk. now apply (find_none _ _ F).
Qed.

(** What a successful sort returns: the pending nodes, each once, every node
    after its pending predecessors, and an earlier registered node overtaken
    only while one of its predecessors was still to come. *)
Lemma sort_sound (n : nat) (pending l : list string) :
  NoDup pending -> List.length pending = n ->
  sort g n pending = inr l ->
  Permutation pending l /\
  (forall p k, edge g p k -> In p pending -> In k pending ->
               position p l < position k l) /\
  (forall u v, In u pending -> In v pending ->
               position u pending < position v pending ->
               position v l < position u l ->
               exists p, edge g p u /\ In p l /\ position v l <= position p l).
Proof.
  revert pending l. induction n as [|n IH]; simpl; intros pending l Hnd Hlen.
  - intros [= <-]. destruct pending; [|discriminate].
    split; [constructor|]. split; intros; simpl in *; tauto.
  - destruct (find (ready g pending) pending) as [k0|] eqn:F; [|discriminate].
    destruct (sort g n (remove string_dec k0 pending)) as [e'|l'] eqn:S'; [discriminate|].
    intros [= <-].
    pose proof (find_some _ _ F) as [Hk0 Hready].
    assert (List.length (remove string_dec k0 pending) = n) as Hlen'.
    { pose proof (remove_length_NoDup k0 pending Hnd Hk0). lia. }
    destruct (IH _ _ (remove_NoDup k0 pending Hnd) Hlen' S') as (Hperm & Hedge & Htie).
    assert (forall x, In x l' <-> In x pending /\ x <> k0) as Hin'.
    { intros x. split.
      - intros Hx. apply (Permutation_in _ (Permutation_sym Hperm)) in Hx.
        now apply in_remove in Hx.
      - intros [Hx Hne]. apply (Permutation_in _ Hperm). now apply in_in_remove. }
    split; [|split].
    + apply NoDup_Permutation; [assumption | |].
      * constructor; [rewrite Hin'; tauto|].
        eapply Permutation_NoDup; [exact Hperm | now apply remove_NoDup].
      * intros x. simpl. rewrite Hin'.
        destruct (string_dec k0 x) as [->|Hne]; [tauto|].
        split; [intros H; right; split; [assumption | congruence] | intros [H|H]; [congruence | tauto]].
    + intros p k He Hp Hk.
      destruct (string_dec k0 k) as [<-|Hk'].
      * exfalso. apply (proj1 (ready_true pending k0) Hready p He Hp).
      * rewrite (position_tail k k0 l' Hk').
        destruct (string_dec k0 p) as [<-|Hp']; [rewrite position_head; lia|].
        rewrite (position_tail p k0 l' Hp'). apply -> Nat.succ_lt_mono.
        apply Hedge; [assumption | |]; apply in_in_remove; congruence.
    + intros u v Hu Hv Hlt Hover.
      destruct (string_dec k0 v) as [<-|Hv'].
      * assert (ready g pending u = false) as Hnr by (eapply find_first; eassumption).
        destruct (blocker_spec pending u Hnr) as [He Hb].
        exists (blocker g pending u). split; [assumption|]. split.
        -- destruct (string_dec k0 (blocker g pending u)) as [<-|Hb']; [now left|].
           right. apply Hin'. split; [assumption | congruence].
        -- rewrite position_head. lia.
      * rewrite (position_tail v k0 l' Hv') in *.
        destruct (string_dec k0 u) as [<-|Hu']; [rewrite position_head in Hover; lia|].
        rewrite (position_tail u k0 l' Hu') in Hover.
        destruct (Htie u v) as (p & He & Hp & Hle).
        -- apply in_in_remove; congruence.
        -- apply in_in_remove; congruence.
        -- apply remove_position; congruence || assumption.
        -- lia.
        -- exists p. split; [assumption|]. split; [now right|].
           assert (k0 <> p) as Hp' by (apply Hin' in Hp; intros ->; tauto).
           rewrite (position_tail p k0 l' Hp'). lia.
Qed.


(** *** Resolution of a well-formed graph *)

Lemma resolve_sound (l : list string) :
  wf g -> resolve g = inr l ->
  Permutation (nodes g) l /\
  (forall a b, edge g a b -> precedes l a b) /\
  (forall u v, In u (nodes g) -> In v (nodes g) ->
               position u (nodes g) < position v (nodes g) ->
               position v l < position u l ->
               exists p, edge g p u /\ In p l /\ position v l <= position p l).
Proof.
  intros [Hnd Hends] R. unfold resolve in R.
  destruct (sort_sound _ _ _ Hnd eq_refl R) as (Hperm & Hedge & Htie).
  split; [assumption|]. split; [|assumption].
  intros a b He. destruct (Hends a b He) as [Ha Hb].
  repeat split; try (eapply Permutation_in; eassumption).
  now apply Hedge.
Qed.

Lemma resolve_acyclic (l : list string) :
  wf g -> resolve g = inr l -> acyclic g.
Proof.
  intros Hwf R k Hk. destruct (resolve_sound l Hwf R) as (_ & Hedge & _).
  apply (precedes_irrefl l k). now apply (precedes_tc (edge g) l Hedge).
Qed.


Lemma resolve_cyclic (k : string) :
  wf g -> clos_trans string (edge g) k k ->
  exists c, resolve g = inl (CycleError c) /\ clos_trans string (edge g) c c.
Proof.
  intros Hwf Hk. destruct (resolve g) as [e|l] eqn:R.
  - destruct Hwf as [Hnd _].
    destruct (sort_fails _ _ _ Hnd eq_refl R) as (c & -> & Hc). now exists c.
  - exfalso. exact (resolve_acyclic l Hwf R k Hk).
Qed.

End Resolve.

(** *** Building a graph *)

Section Build.

Variable T : Type.

Lemma mention_nodes (k x : string) (g : graph T) :
  In x (nodes (mention k g)) <-> In x (nodes g) \/ x = k.
Proof.
  unfold mention. destruct (mem k (nodes g)) eqn:E.
  - apply mem_In in E. split; [auto | intros [H| ->]; assumption].
  - unfold nodes; simpl. rewrite !in_app_iff. simpl. intuition.
Qed.

Lemma mention_wf (k : string) (g : graph T) : wf g -> wf (mention k g).
Proof.
  intros [Hnd Hends]. unfold mention. destruct (mem k (nodes g)) eqn:E; [now split|].
  apply mem_false in E. split.
  - unfold nodes in *; simpl. rewrite app_assoc.
    apply NoDup_app; [assumption | repeat constructor; auto |].
    intros x Hx [<-|[]]. contradiction.
  - intros a b He. destruct (Hends a b He) as [Ha Hb].
    unfold nodes in *; simpl. rewrite app_assoc, !in_app_iff.
    apply in_app_iff in Ha, Hb. tauto.
Qed.

Lemma mention_added (k : string) (g : graph T) : added (mention k g) = added g.
Proof. unfold mention. now destruct (mem k (nodes g)). Qed.

Lemma mention_edges (k : string) (g : graph T) : edges (mention k g) = edges g.
Proof. unfold mention. now destruct (mem k (nodes g)). Qed.

Lemma addEdge_wf (a b : string) (g : graph T) : wf g -> wf (addEdge a b g).
Proof.
  intros Hwf. pose proof (mention_wf b _ (mention_wf a g Hwf)) as [Hnd Hends].
  split; [exact Hnd|].
  intros x y He. unfold edge, addEdge in He; simpl in He.
  apply in_app_iff in He as [He|[[= <- <-]|[]]]; [now apply Hends|].
  change (In a (nodes (mention b (mention a g))) /\ In b (nodes (mention b (mention a g)))).
  rewrite !mention_nodes. tauto.
Qed.

Lemma addEdge_added (a b : string) (g : graph T) : added (addEdge a b g) = added g.
Proof. unfold addEdge; simpl. now rewrite !mention_added. Qed.

Lemma addEdge_edges (a b : string) (g : graph T) :
  edges (addEdge a b g) = edges g ++ [(a, b)].
Proof. unfold addEdge; simpl. now rewrite !mention_edges. Qed.

Lemma set_payload_keys (k : string) (x : T) (l : list (string * T)) :
  map fst (set_payload k x l) = map fst l.
Proof.
  induction l as [|[y v] r IH]; simpl; [reflexivity|].
  destruct (String.eqb y k); simpl; [reflexivity | now rewrite IH].
Qed.

Lemma register_wf (k : string) (x : T) (g : graph T) : wf g -> wf (register k x g).
Proof.
  intros [Hnd Hends]. unfold register. destruct (mem k (map fst (added g))) eqn:E.
  - unfold wf, nodes, edge in *; simpl. rewrite set_payload_keys. now split.
  - apply mem_false in E.
    assert (forall y, In y (nodes g) ->
              In y (map fst (added g ++ [(k, x)]) ++ remove string_dec k (hinted g))) as Hin.
    { intros y Hy. unfold nodes in Hy. rewrite map_app, !in_app_iff in *. simpl.
      destruct Hy as [Hy|Hy]; [auto|].
      destruct (string_dec y k) as [->|Hne]; [auto|].
      right. now apply in_in_remove. }
    split.
    + unfold nodes in *; simpl. rewrite map_app. simpl.
      apply NoDup_app_inv in Hnd as (Hk & Hh & Hdis).
      apply NoDup_app; [|now apply remove_NoDup|].
      * apply NoDup_app; [assumption | repeat constructor; auto |].
        intros y Hy [<-|[]]. contradiction.
      * intros y Hy Hr. apply in_remove in Hr as [Hr Hne].
        apply in_app_iff in Hy as [Hy|[<-|[]]]; [|congruence].
        exact (Hdis y Hy Hr).
    + intros a b He. destruct (Hends a b He). split; now apply Hin.
Qed.

Lemma register_edges (k : string) (x : T) (g : graph T) :
  edges (register k x g) = edges g.
Proof. unfold register. now destruct (mem k (map fst (added g))). Qed.

Lemma register_keys (k : string) (x : T) (g : graph T) :
  ~ In k (map fst (added g)) ->
  added (register k x g) = added g ++ [(k, x)].
Proof.
  intros H. apply mem_false in H. unfold register. now rewrite H.
Qed.

Lemma fold_before (k : string) (bs : list string) (g : graph T) :
  let g' := fold_left (fun h b => addEdge k b h) bs g in
  (wf g -> wf g') /\ added g' = added g /\
  edges g' = edges g ++ map (fun b => (k, b)) bs.
Proof.
  revert g. induction bs as [|b r IH]; intros g; cbn [fold_left map]; cbv zeta.
  - now rewrite app_nil_r.
  - destruct (IH (addEdge k b g)) as (Hwf & Ha & He). cbv zeta in *.
    split; [intros H; now apply Hwf, addEdge_wf|].
    split; [now rewrite Ha, addEdge_added|].
    now rewrite He, addEdge_edges, <- app_assoc.
Qed.

Lemma fold_after (k : string) (xs : list string) (g : graph T) :
  let g' := fold_left (fun h a => addEdge a k h) xs g in
  (wf g -> wf g') /\ added g' = added g /\
  edges g' = edges g ++ map (fun a => (a, k)) xs.
Proof.
  revert g. induction xs as [|a r IH]; intros g; cbn [fold_left map]; cbv zeta.
  - now rewrite app_nil_r.
  - destruct (IH (addEdge a k g)) as (Hwf & Ha & He). cbv zeta in *.
    split; [intros H; now apply Hwf, addEdge_wf|].
    split; [now rewrite Ha, addEdge_added|].
    now rewrite He, addEdge_edges, <- app_assoc.
Qed.

Lemma add_spec (k : string) (x : T) (bs xs : list string) (g : graph T) :
  (wf g -> wf (add k x bs xs g)) /\
  added (add k x bs xs g) = added (register k x g) /\
  edges (add k x bs xs g)
    = edges g ++ map (fun b => (k, b)) bs ++ map (fun a => (a, k)) xs.
Proof.
  unfold add.
  destruct (fold_before k bs (register k x g)) as (W1 & A1 & E1).
  destruct (fold_after k xs (fold_left (fun h b => addEdge k b h) bs (register k x g)))
    as (W2 & A2 & E2).
  cbv zeta in *. split; [intros H; now apply W2, W1, register_wf|].
  split; [now rewrite A2, A1|].
  now rewrite E2, E1, register_edges, <- app_assoc.
Qed.

Lemma empty_wf : wf (@empty T).
Proof. split; [constructor | intros a b []]. Qed.

End Build.

End DAGMapFacts.

(** ** The monad and the steps of the function *)

Lemma constructed_app (l1 l2 : list event) :
  constructed (l1 ++ l2) = constructed l1 ++ constructed l2.
Proof.
  induction l1 as [|ev r IH]; simpl; [reflexivity|].
  destruct ev; simpl; now rewrite ?IH.
Qed.

Lemma reported_app (l1 l2 : list event) :
  reported (l1 ++ l2) = reported l1 ++ reported l2.
Proof.
  induction l1 as [|ev r IH]; simpl; [reflexivity|].
  destruct ev; simpl; now rewrite ?IH.
Qed.

Lemma failures_app (l1 l2 : list event) :
  failures (l1 ++ l2) = failures l1 ++ failures l2.
Proof.
  induction l1 as [|ev r IH]; simpl; [reflexivity|].
  destruct ev as [| | | | |key [e|]| |]; simpl; now rewrite ?IH.
Qed.

Lemma failures_In (l : list event) (key : string) (e : error) :
  In (New key (Some e)) l <-> In (key, e) (failures l).
Proof.
  induction l as [|ev r IH]; simpl; [tauto|].
  destruct ev as [| | | | |k [e'|]| |]; simpl; rewrite <- IH;
    try (split; [intros [H|H]; [discriminate | assumption] | now right]).
  split; (intros [H|H]; [inversion H; now left | now right]).
Qed.

Opaque AddonConstructor.

(** What one descriptor contributes: the write of [pkg.main] always happens;
    the events and the result depend on where the step stops. *)
Lemma initialize_cases (h : host) (parent : parentObject) (project : projectObject)
    (ref : string) (info : addonInfo) (w : world) :
  exists r evs ld,
    initialize h parent project ref info w
      = (r, {| packages := update ref (write_main (resolveMain h (pkg info))) (packages w);
               loaded := ld; log := log w ++ evs |}) /\
    ((exists e, realpathSync h (mainPath h info) = inl e /\ r = inl e /\
                evs = [Realpath (mainPath h info)]) \/
     (exists rp e, realpathSync h (mainPath h info) = inr rp /\ r = inl e /\
                   evs = [Realpath (mainPath h info); Load rp]) \/
     (exists rp e, realpathSync h (mainPath h info) = inr rp /\
                   r = inl (SilentError (constructorMessage info)) /\
                   evs = [Realpath (mainPath h info); Load rp; New ref (Some e)]
                           ++ (if ui parent then [WriteError e] else [])) \/
     (exists rp e, realpathSync h (mainPath h info) = inr rp /\ r = inl e /\
                   evs = [Realpath (mainPath h info); Load rp; New ref None;
                          InitializeAddons ref]) \/
     (exists rp a tail, realpathSync h (mainPath h info) = inr rp /\ r = inr a /\
                   (tail = [] \/ tail = [InitializeAddons ref]) /\
                   evs = [Realpath (mainPath h info); Load rp; New ref None] ++ tail)).
Proof.
  unfold initialize, bind, get, store, modify, emit, lift, throw, ret. simpl.
  destruct (realpathSync h (mainPath h info)) as [e|rp] eqn:R; simpl.
  { eexists _, _, _. split; [reflexivity|]. left. now exists e. }
  destruct (load h _ rp) as [e|addonModule] eqn:L; simpl.
  { rewrite <- app_assoc. simpl. eexists _, _, _. split; [reflexivity|].
    right; left. now exists rp, e. }
  set (C := AddonConstructor addonModule (dirname h rp) _ rp). clearbody C.
  assert (forall f w0, exists ld',
            remember rp addonModule f w0
              = (inr tt, {| packages := packages w0; loaded := ld'; log := log w0 |})) as Hrem.
  { intros f [pk ld0 lg]. unfold remember, modify, ret. destruct addonModule; eexists; reflexivity. }
  destruct (Hrem C {| packages := update ref (write_main (resolveMain h (pkg info))) (packages w);
                      loaded := loaded w;
                      log := (log w ++ [Realpath (mainPath h info)]) ++ [Load rp] |})
    as [ld1 ->]. simpl.
  destruct (construct C (proto_root C) (proto_pkg C) parent project) as [e|a] eqn:N; simpl.
  { destruct (ui parent); simpl; rewrite <- ?app_assoc; simpl;
      (eexists _, _, _; split; [reflexivity|]); right; right; left; now exists rp, e. }
  destruct (fresh_initializeAddons a) as [[e|kids]|] eqn:I; simpl.
  - rewrite <- ?app_assoc. simpl. eexists _, _, _. split; [reflexivity|].
    right; right; right; left. now exists rp, e.
  - match goal with |- context [remember rp addonModule ?f ?w0] =>
      destruct (Hrem f w0) as [ld2 ->] end. simpl.
    rewrite <- ?app_assoc. simpl. eexists _, _, _. split; [reflexivity|].
    right; right; right; right. eexists rp, _, [InitializeAddons ref]. auto.
  - match goal with |- context [remember rp addonModule ?f ?w0] =>
      destruct (Hrem f w0) as [ld2 ->] end. simpl.
    rewrite <- ?app_assoc. simpl. eexists _, _, _. split; [reflexivity|].
    right; right; right; right. eexists rp, _, []. auto.
Qed.

Lemma initialize_spec (h : host) (parent : parentObject) (project : projectObject)
    (ref : string) (info : addonInfo) (w : world) :
  exists r evs ld,
    initialize h parent project ref info w
      = (r, {| packages := update ref (write_main (resolveMain h (pkg info))) (packages w);
               loaded := ld; log := log w ++ evs |}) /\
    match r with
    | inr _ => constructed evs = [ref] /\ quiet_events evs
    | inl e =>
        (constructed evs = [] \/ constructed evs = [ref]) /\
        (quiet_events evs \/
         exists e0, e = SilentError (constructorMessage info) /\ aborted_by parent ref e0 evs)
    end.
Proof.
  destruct (initialize_cases h parent project ref info w) as (r & evs & ld & E & Hc).
  exists r, evs, ld. split; [exact E|].
  destruct Hc as [(e & _ & -> & ->) | [(rp & e & _ & -> & ->) | [(rp & e & _ & -> & ->)
    | [(rp & e & _ & -> & ->) | (rp & a & tail & _ & -> & Ht & ->)]]]].
  - split; [now left | left; now split].
  - split; [now left | left; now split].
  - split; [right; now destruct (ui parent)|].
    right. exists e. split; [reflexivity|].
    exists [Realpath (mainPath h info); Load rp]. split; [reflexivity | now split].
  - split; [now right | left; now split].
  - destruct Ht as [-> | ->]; split; try reflexivity; now split.
Qed.

Transparent AddonConstructor.

(** *** The descriptor objects across the call *)

Lemma same_but_main_refl (i : addonInfo) : same_but_main i i.
Proof. now repeat split. Qed.

Lemma same_but_main_trans (i j k : addonInfo) :
  same_but_main i j -> same_but_main j k -> same_but_main i k.
Proof.
  intros (A1 & A2 & A3 & A4) (B1 & B2 & B3 & B4).
  repeat split; congruence.
Qed.

Lemma frame_refl (P : descriptors) : frame P P.
Proof.
  induction P as [|x r IH]; constructor; [|exact IH].
  split; [reflexivity | apply same_but_main_refl].
Qed.

Lemma frame_trans (P Q R : descriptors) : frame P Q -> frame Q R -> frame P R.
Proof.
  intros H. revert R. induction H as [|x y P Q [Hk Hs] _ IH]; intros R HR.
  - inversion HR. constructor.
  - inversion HR as [|? z ? R' [Hk' Hs'] HR']; subst. constructor.
    + split; [congruence | eapply same_but_main_trans; eassumption].
    + now apply IH.
Qed.

Lemma frame_update (key m : string) (P : descriptors) :
  frame P (update key (write_main m) P).
Proof.
  induction P as [|[k i] r IH]; simpl; [constructor|].
  destruct (String.eqb k key).
  - constructor; [|apply frame_refl]. split; [reflexivity | now repeat split].
  - constructor; [|exact IH]. split; [reflexivity | apply same_but_main_refl].
Qed.

Lemma frame_keys (P Q : descriptors) : frame P Q -> map fst P = map fst Q.
Proof.
  induction 1 as [|x y P Q [Hk _] _ IH]; simpl; [reflexivity | congruence].
Qed.

Lemma frame_lookup (P Q : descriptors) (key : string) (j : addonInfo) :
  frame P Q -> lookup key Q = Some j ->
  exists i, lookup key P = Some i /\ same_but_main i j.
Proof.
  induction 1 as [|[k i] [k' i'] P Q [Hk Hs] _ IH]; simpl; [discriminate|].
  simpl in Hk. subst k'. destruct (String.eqb k key).
  - intros [= <-]. now exists i.
  - exact IH.
Qed.

Lemma constructorMessage_frame (i j : addonInfo) :
  same_but_main i j -> constructorMessage i = constructorMessage j.
Proof. intros (A1 & A2 & _). unfold constructorMessage. now rewrite A1, A2. Qed.

(** *** The loop over the resolved sequence *)

Lemma world_eta (w : world) :
  w = {| packages := packages w; loaded := loaded w; log := log w ++ [] |}.
Proof. destruct w; simpl. now rewrite app_nil_r. Qed.

Lemma quiet_app (l1 l2 : list event) :
  quiet_events l1 -> quiet_events l2 -> quiet_events (l1 ++ l2).
Proof.
  intros [A1 A2] [B1 B2]. unfold quiet_events.
  now rewrite failures_app, reported_app, A1, A2, B1, B2.
Qed.

Lemma aborted_app (parent : parentObject) (key : string) (e : error) (l1 l2 : list event) :
  quiet_events l1 -> aborted_by parent key e l2 -> aborted_by parent key e (l1 ++ l2).
Proof.
  intros Hq (pre & -> & Hpre). exists (l1 ++ pre).
  split; [now rewrite app_assoc | now apply quiet_app].
Qed.

Lemma forEach_spec (h : host) (parent : parentObject) (project : projectObject)
    (order : list (string * option string)) :
  forall w,
    (forall k ref, In (k, Some ref) order -> ref = k /\ In k (map fst (packages w))) ->
    exists r evs ld P',
      forEach h parent project order w
        = (r, {| packages := P'; loaded := ld; log := log w ++ evs |}) /\
      frame (packages w) P' /\
      prefix (constructed evs) (present order) /\
      match r with
      | inr l => constructed evs = present order /\
                 List.length l = List.length (present order) /\
                 quiet_events evs
      | inl e => quiet_events evs \/
                 exists key e0 info,
                   lookup key (packages w) = Some info /\
                   e = SilentError (constructorMessage info) /\
                   aborted_by parent key e0 evs
      end.
Proof.
  induction order as [|[k [ref|]] rest IH]; intros w Hrefs.
  - exists (inr []), [], (loaded w), (packages w). simpl. unfold ret.
    split; [now rewrite (world_eta w) at 1|].
    split; [apply frame_refl|]. split; [now exists []|]. repeat split.
  - destruct (Hrefs k ref (or_introl eq_refl)) as [-> Hk].
    destruct (lookup k (packages w)) as [info|] eqn:Lk.
    2:{ apply lookup_None in Lk. contradiction. }
    destruct (initialize_spec h parent project k info w) as (r1 & evs1 & ld1 & E1 & H1).
    cbn [forEach]. unfold bind at 1. unfold visit. unfold bind at 1. unfold get at 1.
    cbn [snd]. rewrite Lk. unfold bind at 1. rewrite E1.
    destruct r1 as [e|a].
    + destruct H1 as [Hc Hq].
      exists (inl e), evs1, ld1, (update k (write_main (resolveMain h (pkg info))) (packages w)).
      split; [reflexivity|]. split; [apply frame_update|].
      split.
      { cbn [present]. destruct Hc as [-> | ->]; [now exists (k :: present rest)|].
        now exists (present rest). }
      destruct Hq as [Hq | (e0 & -> & Hab)]; [now left|].
      right. now exists k, e0, info.
    + destruct H1 as [Hc Hq]. unfold ret at 1.
      set (w1 := {| packages := update k (write_main (resolveMain h (pkg info))) (packages w);
                    loaded := ld1; log := log w ++ evs1 |}).
      assert (frame (packages w) (packages w1)) as Hf1 by apply frame_update.
      destruct (IH w1) as (r2 & evs2 & ld2 & P2 & E2 & Hf2 & Hp2 & H2).
      { intros k' ref' Hin. destruct (Hrefs k' ref' (or_intror Hin)) as [-> Hk'].
        split; [reflexivity|]. now rewrite <- (frame_keys _ _ Hf1). }
      unfold bind at 1. rewrite E2. cbn [log w1]. rewrite <- app_assoc.
      destruct r2 as [e|l].
      * exists (inl e), (evs1 ++ evs2), ld2, P2.
        split; [reflexivity|]. split; [eapply frame_trans; eassumption|].
        split.
        { rewrite constructed_app, Hc. cbn [present]. destruct Hp2 as [tl ->].
          now exists tl. }
        destruct H2 as [Hq2 | (key & e0 & info2 & L2 & -> & Hab)].
        -- left. now apply quiet_app.
        -- right. destruct (frame_lookup _ _ key info2 Hf1 L2) as (info0 & L0 & Hs).
           exists key, e0, info0. split; [assumption|].
           split; [now rewrite (constructorMessage_frame _ _ Hs)|].
           now apply aborted_app.
      * destruct H2 as (Hc2 & Hl2 & Hq2). unfold ret.
        exists (inr (a :: l)), (evs1 ++ evs2), ld2, P2.
        split; [reflexivity|]. split; [eapply frame_trans; eassumption|].
        rewrite constructed_app, Hc, Hc2. cbn [present].
        split; [exists []; now rewrite app_nil_r|].
        split; [reflexivity|]. split; [simpl; now rewrite Hl2 | now apply quiet_app].
  - destruct (IH w) as (r2 & evs2 & ld2 & P2 & E2 & Hf2 & Hp2 & H2).
    { intros k' ref' Hin. apply Hrefs. now right. }
    cbn [forEach]. unfold bind at 1. unfold visit. unfold bind at 1. unfold get at 1.
    cbn [snd]. unfold ret at 1. unfold bind at 1. rewrite E2.
    exists r2, evs2, ld2, P2. cbn [present].
    split; [now destruct r2|]. split; [assumption|]. split; [assumption|].
    now destruct r2.
Qed.

(** *** The graph of a descriptor set *)

Lemma constraint_cons (key : string) (info : addonInfo) (rest : descriptors) (a b : string) :
  constraint ((key, info) :: rest) a b <->
  (exists config, ember_addon (pkg info) = Some config /\
     ((a = key /\ In b (before config)) \/ (b = key /\ In a (after config)))) \/
  constraint rest a b.
Proof.
  unfold constraint. split.
  - intros (k & i & c & Hin & Hc & Hor). destruct Hin as [Heq|Hin].
    + injection Heq as <- <-. left. now exists c.
    + right. now exists k, i, c.
  - intros [(c & Hc & H) | (k & i & c & Hin & Hc & H)].
    + exists key, info, c. split; [now left | now split].
    + exists k, i, c. split; [now right | now split].
Qed.

Lemma graphOf_wf (ds : descriptors) :
  forall g, DAGMap.wf g -> DAGMap.wf (graphOf ds g).
Proof.
  induction ds as [|[key info] rest IH]; intros g Hwf; simpl; [assumption|].
  destruct (ember_addon (pkg info)) as [c|]; [|now apply IH].
  apply IH. now apply DAGMapFacts.add_spec.
Qed.

Lemma graphOf_edges (ds : descriptors) (a b : string) :
  forall g, DAGMap.edge (graphOf ds g) a b <-> DAGMap.edge g a b \/ constraint ds a b.
Proof.
  induction ds as [|[key info] rest IH]; intros g; simpl.
  - split; [auto | intros [H|(k & i & c & [] & _)]; assumption].
  - rewrite constraint_cons. destruct (ember_addon (pkg info)) as [c|] eqn:Ec.
    + rewrite IH. unfold DAGMap.edge at 1.
      destruct (DAGMapFacts.add_spec string key key (before c) (after c) g) as (_ & _ & ->).
      rewrite !in_app_iff, !in_map_iff. unfold DAGMap.edge. split.
      * intros [[H | [(x & [= <- <-] & Hx) | (x & [= <- <-] & Hx)]] | H]; auto.
        -- right; left. exists c. auto.
        -- right; left. exists c. auto.
      * intros [H | [(c' & [= <-] & [[-> Hx] | [-> Hx]]) | H]]; auto.
        -- left; right; left. now exists b.
        -- left; right; right. now exists a.
    + rewrite IH. split; [tauto|]. intros [H | [(c' & Hc & _) | H]]; auto. discriminate.
Qed.

Lemma lookup_app {A : Type} (k : string) (l1 l2 : list (string * A)) :
  lookup k (l1 ++ l2) = match lookup k l1 with Some a => Some a | None => lookup k l2 end.
Proof.
  induction l1 as [|[x a] r IH]; simpl; [reflexivity|].
  now destruct (String.eqb x k).
Qed.

Lemma set_payload_lookup {A : Type} (k k' : string) (x r : A) (l : list (string * A)) :
  lookup k' (DAGMap.set_payload k x l) = Some r ->
  (k' = k /\ r = x) \/ lookup k' l = Some r.
Proof.
  induction l as [|[y v] t IH]; simpl; [discriminate|].
  destruct (String.eqb_spec y k) as [->|Hne]; simpl.
  - destruct (String.eqb_spec k k'); [intros [= <-]; now left | now right].
  - destruct (String.eqb y k'); [now right | exact IH].
Qed.

Lemma graphOf_payload (ds : descriptors) (k ref : string) :
  forall g,
    lookup k (DAGMap.added (graphOf ds g)) = Some ref ->
    lookup k (DAGMap.added g) = Some ref \/ (ref = k /\ In k (map fst ds)).
Proof.
  induction ds as [|[key info] rest IH]; intros g; simpl; [auto|].
  destruct (ember_addon (pkg info)) as [c|].
  - intros H. apply IH in H as [H | [-> H]]; [|auto].
    destruct (DAGMapFacts.add_spec string key key (before c) (after c) g) as (_ & Ha & _).
    rewrite Ha in H. unfold DAGMap.register in H.
    destruct (mem key (map fst (DAGMap.added g))); simpl in H.
    + apply set_payload_lookup in H as [[-> ->] | H]; auto.
    + rewrite lookup_app in H. destruct (lookup k (DAGMap.added g)); [now left|].
      simpl in H. destruct (String.eqb_spec key k) as [->|]; [|discriminate].
      injection H as <-. auto.
  - intros H. apply IH in H as [H | [-> H]]; auto.
Qed.

Lemma graphOf_added (ds : descriptors) :
  forall g,
    configured ds -> NoDup (map fst (DAGMap.added g) ++ map fst ds) ->
    DAGMap.added (graphOf ds g) = DAGMap.added g ++ map (fun entry => (fst entry, fst entry)) ds.
Proof.
  induction ds as [|[key info] rest IH]; intros g Hc Hnd; simpl; [now rewrite app_nil_r|].
  inversion Hc as [|? ? Hk Hrest]; subst. simpl in Hk.
  destruct (ember_addon (pkg info)) as [c|]; [|congruence].
  destruct (DAGMapFacts.add_spec string key key (before c) (after c) g) as (_ & Ha & _).
  assert (~ In key (map fst (DAGMap.added g))) as Hnew.
  { apply NoDup_app_inv in Hnd as (_ & _ & Hdis). intros H. apply (Hdis key H). now left. }
  rewrite (DAGMapFacts.register_keys string key key g Hnew) in Ha.
  rewrite IH; [rewrite Ha, <- app_assoc; reflexivity | assumption |].
  rewrite Ha, map_app. simpl. rewrite <- app_assoc. exact Hnd.
Qed.

(** *** Building the graph inside the call *)

Lemma addAll_configured (ds : descriptors) :
  configured ds ->
  forall g w,
    addAll ds g w = (inr (graphOf ds g), logged w (map GraphAdd (map fst ds))).
Proof.
  induction 1 as [|[key info] rest Hk _ IH]; intros g w; simpl.
  - unfold ret, logged. now rewrite (world_eta w) at 1.
  - simpl in Hk. destruct (ember_addon (pkg info)) as [c|]; [|congruence].
    unfold bind, emit. rewrite IH. unfold logged; simpl. now rewrite <- app_assoc.
Qed.

Lemma addAll_unconfigured (ds : descriptors) :
  ~ configured ds ->
  forall g w, exists msg done,
    addAll ds g w = (inl (TypeError msg), logged w (map GraphAdd done)).
Proof.
  induction ds as [|[key info] rest IH]; intros Hn g w.
  - exfalso. apply Hn. constructor.
  - simpl. destruct (ember_addon (pkg info)) as [c|] eqn:Ec.
    + assert (~ configured rest) as Hn'.
      { intros H. apply Hn. constructor; [simpl; rewrite Ec; discriminate | assumption]. }
      unfold bind, emit.
      destruct (IH Hn'
                   (DAGMap.add key key (before c) (after c) g)
                   {| packages := packages w; loaded := loaded w; log := log w ++ [GraphAdd key] |})
        as (msg & done & ->).
      exists msg, (key :: done). unfold logged; simpl. now rewrite <- app_assoc.
    + eexists _, []. unfold throw, logged. simpl. now rewrite (world_eta w) at 1.
Qed.

(** *** The whole call *)

Lemma configured_dec (ds : descriptors) : {configured ds} + {~ configured ds}.
Proof.
  apply Forall_dec. intros [k i]. simpl.
  destruct (ember_addon (pkg i)); [left; discriminate | right; congruence].
Qed.

Lemma each_refs (ds : descriptors) (order : list (string * option string)) :
  DAGMap.each (graphOf ds DAGMap.empty) = inr order ->
  forall k ref, In (k, Some ref) order -> ref = k /\ In k (map fst ds).
Proof.
  unfold DAGMap.each. destruct (DAGMap.resolve _) as [e|l]; [discriminate|].
  intros [= <-] k ref Hin. apply in_map_iff in Hin as (x & [= -> Hl] & _).
  apply graphOf_payload in Hl as [Hl|Hl]; [discriminate | assumption].
Qed.

Lemma instantiate_shape (h : host) (parent : parentObject) (project : projectObject)
    (ds : descriptors) :
  exists r evs ld P',
    instantiateAddons h parent project (val ds)
      = (r, {| packages := P'; loaded := ld; log := evs |}) /\
    frame ds P' /\
    ((ds = [] /\ r = inr [] /\ evs = [] /\ P' = ds /\ ld = []) \/
     (~ configured ds /\ P' = ds /\ ld = [] /\ exists msg done,
        r = inl (TypeError msg) /\ evs = GraphNew :: map GraphAdd done) \/
     (configured ds /\ P' = ds /\ ld = [] /\ exists e,
        DAGMap.each (graphOf ds DAGMap.empty) = inl e /\ r = inl e /\ evs = header ds) \/
     (configured ds /\ exists order body,
        DAGMap.each (graphOf ds DAGMap.empty) = inr order /\
        evs = header ds ++ body /\
        prefix (constructed body) (present order) /\
        match r with
        | inr l => constructed body = present order /\
                   List.length l = List.length (present order) /\
                   quiet_events body
        | inl e => quiet_events body \/
                   exists key e0 info,
                     lookup key ds = Some info /\
                     e = SilentError (constructorMessage info) /\
                     aborted_by parent key e0 body
        end)).
Proof.
  destruct ds as [|entry rest].
  { exists (inr []), [], [], []. split; [reflexivity|]. split; [constructor|]. left. now repeat split. }
  set (ds := entry :: rest).
  change (instantiateAddons h parent project (val ds))
    with ((emit GraphNew ;;;
           graph <- addAll ds DAGMap.empty ;;
           emit GraphEach ;;;
           order <- lift (DAGMap.each graph) ;;
           forEach h parent project order)
            {| packages := ds; loaded := []; log := [] |}).
  unfold bind at 1. unfold emit at 1. cbn [packages loaded log app].
  destruct (configured_dec ds) as [Hc|Hn].
  - unfold bind at 1. rewrite (addAll_configured ds Hc).
    unfold bind at 1. unfold emit at 1. unfold logged. cbn [packages loaded log app].
    unfold bind at 1. unfold lift at 1.
    destruct (DAGMap.each (graphOf ds DAGMap.empty)) as [e|order] eqn:E.
    + exists (inl e), (header ds), [], ds. split; [reflexivity|]. split; [apply frame_refl|].
      right; right; left. repeat (split; [assumption || reflexivity|]). now exists e.
    + set (w1 := {| packages := ds; loaded := [];
                    log := (GraphNew :: map GraphAdd (map fst ds)) ++ [GraphEach] |}).
      destruct (forEach_spec h parent project order w1 (each_refs ds order E))
        as (r & body & ld & P' & E' & Hf & Hp & Hr).
      exists r, (header ds ++ body), ld, P'. split; [exact E'|]. split; [exact Hf|].
      right; right; right. split; [assumption|]. exists order, body. auto.
  - destruct (addAll_unconfigured ds Hn DAGMap.empty
                {| packages := ds; loaded := []; log := [GraphNew] |}) as (msg & done & E).
    unfold bind at 1. rewrite E.
    exists (inl (TypeError msg)), (GraphNew :: map GraphAdd done), [], ds.
    split; [reflexivity|]. split; [apply frame_refl|].
    right; left. repeat (split; [assumption || reflexivity|]). now exists msg, done.
Qed.

Lemma header_quiet (ds : descriptors) :
  constructed (header ds) = [] /\ quiet_events (header ds).
Proof.
  unfold header, quiet_events. simpl.
  rewrite constructed_app, failures_app, reported_app. simpl.
  assert (forall l, constructed (map GraphAdd l) = [] /\ failures (map GraphAdd l) = [] /\
                    reported (map GraphAdd l) = []) as H.
  { induction l as [|x r IH]; simpl; [now repeat split | exact IH]. }
  destruct (H (map fst ds)) as (-> & -> & ->). now repeat split.
Qed.

Lemma graph_events_quiet (done : list string) :
  constructed (GraphNew :: map GraphAdd done) = [] /\
  quiet_events (GraphNew :: map GraphAdd done).
Proof.
  unfold quiet_events. simpl. induction done as [|x r IH]; simpl; [now repeat split | exact IH].
Qed.

(** *** Sublists and positions *)






Lemma clos_trans_incl (R S : relation string) :
  (forall a b, R a b -> S a b) ->
  forall a b, clos_trans string R a b -> clos_trans string S a b.
Proof.
  intros H a b Hab. induction Hab as [a b Hab | a b c _ IH1 _ IH2].
  - apply t_step. now apply H.
  - eapply t_trans; eassumption.
Qed.

Lemma clos_trans_first (R : relation string) (a b : string) :
  clos_trans string R a b -> exists c, R a c.
Proof. induction 1 as [a b Hab | a b c _ IH1 _ _]; [now exists b | exact IH1]. Qed.

(** *** The graph of a descriptor set, resolved *)

Lemma graphOf_edge (ds : descriptors) (a b : string) :
  DAGMap.edge (graphOf ds DAGMap.empty) a b <-> constraint ds a b.
Proof. rewrite graphOf_edges. unfold DAGMap.edge at 1. simpl. tauto. Qed.

Lemma graphOf_cycle (ds : descriptors) (k : string) :
  clos_trans string (DAGMap.edge (graphOf ds DAGMap.empty)) k k <->
  clos_trans string (constraint ds) k k.
Proof.
  split; apply clos_trans_incl; intros a b; apply graphOf_edge.
Qed.

Lemma graphOf_empty_wf (ds : descriptors) : DAGMap.wf (graphOf ds DAGMap.empty).
Proof. apply graphOf_wf, DAGMapFacts.empty_wf. Qed.

(** A descriptor set whose graph resolves declares no cycle. *)
Lemma resolved_acyclic (ds : descriptors) (l : list string) :
  DAGMap.resolve (graphOf ds DAGMap.empty) = inr l ->
  forall k, ~ clos_trans string (constraint ds) k k.
Proof.
  intros R k Hk. apply graphOf_cycle in Hk.
  exact (DAGMapFacts.resolve_acyclic string _ l (graphOf_empty_wf ds) R k Hk).
Qed.

Lemma lookup_dup (k : string) (ds : descriptors) :
  lookup k (map (fun entry : string * addonInfo => (fst entry, fst entry)) ds)
    = if mem k (map fst ds) then Some k else None.
Proof.
  induction ds as [|[x i] r IH]; simpl; [reflexivity|].
  rewrite String.eqb_sym. destruct (String.eqb_spec k x) as [->|Hne]; simpl; [reflexivity|].
  exact IH.
Qed.

Lemma present_filter (keys : list string) (added : list (string * string)) (l : list string) :
  (forall k, lookup k added = if mem k keys then Some k else None) ->
  present (map (fun k => (k, lookup k added)) l) = filter (fun k => mem k keys) l.
Proof.
  intros H. induction l as [|x r IH]; simpl; [reflexivity|].
  rewrite H. destruct (mem x keys); now rewrite IH.
Qed.

(** ** The examples of the specification, run *)

Example after_constraint :
  fst (instantiateAddons
         (Sample.disk [("/addons/x/index.js", Sample.fn (Sample.plain "x"));
                       ("/addons/y/index.js", Sample.fn (Sample.plain "y"))])
         Sample.app None
         (val [Sample.info "x" None (Sample.config [] ["y"]);
               Sample.info "y" None (Sample.config [] [])]))
  = inr [ {| addon_name := "y"; addons := [];
             constructor :=
               {| proto_root := val "/addons/y";
                  proto_pkg := val {| main := Some "index.js";
                                      ember_addon := Sample.config [] [];
                                      other_fields := [] |};
                  _meta_ := val {| modulePath := "/addons/y/index.js";
                                   lookupDuration := 0; initializeIn := 3 |};
                  construct := Sample.plain "y" |} |};
          {| addon_name := "x"; addons := [];
             constructor :=
               {| proto_root := val "/addons/x";
                  proto_pkg := val {| main := Some "index.js";
                                      ember_addon := Sample.config [] ["y"];
                                      other_fields := [] |};
                  _meta_ := val {| modulePath := "/addons/x/index.js";
                                   lookupDuration := 0; initializeIn := 3 |};
                  construct := Sample.plain "x" |} |} ].
Proof. reflexivity. Qed.

Example before_constraint :
  constructed (log (snd (instantiateAddons
         (Sample.disk [("/addons/x/index.js", Sample.fn (Sample.plain "x"));
                       ("/addons/y/index.js", Sample.fn (Sample.plain "y"))])
         Sample.quiet None
         (val [Sample.info "y" None (Sample.config [] []);
               Sample.info "x" None (Sample.config ["y"] [])]))))
  = ["x"; "y"].
Proof. reflexivity. Qed.

Example unknown_names_are_hints :
  DAGMap.each (graphOf [Sample.info "b" None (Sample.config [] ["u"]);
                        Sample.info "a" None (Sample.config ["u"] [])] DAGMap.empty)
  = inr [("a", Some "a"); ("u", None); ("b", Some "b")].
Proof. reflexivity. Qed.

Example main_without_extension :
  mainPath (Sample.disk []) (snd (Sample.info "z" (Some "lib/foo") (Sample.config [] [])))
  = "/addons/z/lib/foo.js".
Proof. reflexivity. Qed.

Example main_current_directory :
  resolveMain (Sample.disk []) (pkg (snd (Sample.info "z" (Some ".") (Sample.config [] []))))
  = "index.js".
Proof. reflexivity. Qed.

Example declarative_module :
  let o := {| own_root := None; own_pkg := None; behaviour := Sample.plain "d" |} in
  let p := {| main := Some "index.js"; ember_addon := None; other_fields := [] |} in
  proto_root (AddonConstructor (Declarative o) "/addons/d" p "/addons/d/index.js")
    = val "/addons/d" /\
  proto_pkg (AddonConstructor (Declarative o) "/addons/d" p "/addons/d/index.js") = val p.
Proof. split; reflexivity. Qed.

(** * The claims *)

(** ** Empty and absent descriptor mappings *)

(** C9: for the empty descriptor mapping the call returns the empty sequence
    at once: no graph is built or resolved, no path is resolved, no module is
    loaded, no constructor runs, and the world is left as it was. *)
Theorem instantiate_empty (h : host) (parent : parentObject) (project : projectObject) :
  instantiateAddons h parent project (val [])
    = (inr [], {| packages := []; loaded := []; log := [] |}).
Proof. reflexivity. Qed.

(** C10: an absent descriptor mapping, [undefined] or [null], is treated
    exactly like the empty mapping and the call returns the empty sequence. *)
Theorem instantiate_absent (h : host) (parent : parentObject) (project : projectObject) :
  instantiateAddons h parent project undefined = instantiateAddons h parent project (val []) /\
  instantiateAddons h parent project null = instantiateAddons h parent project (val []) /\
  fst (instantiateAddons h parent project undefined) = inr [] /\
  fst (instantiateAddons h parent project null) = inr [].
Proof. repeat split. Qed.

(** ** Descriptors without an [ember-addon] entry *)

(** C7: a descriptor whose manifest has no [ember-addon] entry is not
    accepted: reading [before] of the missing entry throws a [TypeError]
    while the graph is being built, before any constructor is invoked. *)
Theorem missing_config_throws (h : host) (parent : parentObject) (project : projectObject)
    (ds : descriptors) (key : string) (info : addonInfo) :
  In (key, info) ds -> ember_addon (pkg info) = None ->
  exists msg,
    fst (instantiateAddons h parent project (val ds)) = inl (TypeError msg) /\
    constructed (log (snd (instantiateAddons h parent project (val ds)))) = [] /\
    packages (snd (instantiateAddons h parent project (val ds))) = ds.
Proof.
  intros Hin Hnone.
  assert (~ configured ds) as Hn.
  { intros Hc. unfold configured in Hc. rewrite Forall_forall in Hc.
    apply (Hc (key, info) Hin). exact Hnone. }
  destruct (instantiate_shape h parent project ds) as (r & evs & ld & P' & E & _ & Hs).
  rewrite E. simpl.
  destruct Hs as [(-> & _) | [(_ & -> & _ & msg & done & -> & ->) | [(Hc & _) | (Hc & _)]]];
    try contradiction.
  exists msg. repeat split. apply graph_events_quiet.
Qed.

Lemma missing_config_throws_witness :
  exists msg,
    fst (instantiateAddons (Sample.disk []) Sample.app None
           (val [Sample.info "x" None None])) = inl (TypeError msg) /\
    constructed (log (snd (instantiateAddons (Sample.disk []) Sample.app None
           (val [Sample.info "x" None None])))) = [] /\
    packages (snd (instantiateAddons (Sample.disk []) Sample.app None
           (val [Sample.info "x" None None]))) = [Sample.info "x" None None].
Proof.
  apply (missing_config_throws (Sample.disk []) Sample.app None
           [Sample.info "x" None None] "x" (snd (Sample.info "x" None None))).
  - simpl. left. reflexivity.
  - reflexivity.
Defined.

(** ** Entry points that do not exist *)

(** C5: when [fs.realpathSync] throws for the entry point of a descriptor,
    the call fails with that very error, unwrapped; there is no dedicated
    missing-entry-point error.  Shown for a lone descriptor without
    constraints: the module is not loaded and no constructor runs. *)
Theorem missing_entry_point_rethrown (h : host) (parent : parentObject)
    (project : projectObject) (key : string) (info : addonInfo)
    (config : emberAddonConfig) (e : error) :
  ember_addon (pkg info) = Some config ->
  before config = [] -> after config = [] ->
  realpathSync h (mainPath h info) = inl e ->
  instantiateAddons h parent project (val [(key, info)])
    = (inl e,
       {| packages := [(key, write_main (resolveMain h (pkg info)) info)];
          loaded := [];
          log := [GraphNew; GraphAdd key; GraphEach; Realpath (mainPath h info)] |}).
Proof.
  intros Hc Hb Ha Hr.
  unfold instantiateAddons. cbn [map fst addAll]. rewrite Hc, Hb, Ha.
  unfold bind, emit, lift, ret. cbn [packages loaded log app].
  unfold DAGMap.each, DAGMap.resolve, DAGMap.add, DAGMap.register. simpl.
  destruct (string_dec key key) as [_|Hn]; [|congruence]. simpl.
  rewrite String.eqb_refl. simpl.
  unfold visit, bind, get. simpl. rewrite String.eqb_refl.
  destruct (initialize_cases h parent project key info
              {| packages := [(key, info)]; loaded := [];
                 log := [GraphNew; GraphAdd key; GraphEach] |})
    as (r & evs & ld & E & Hcases).
  assert (r = inl e /\ evs = [Realpath (mainPath h info)]) as [-> ->].
  { destruct Hcases as [(e' & R & -> & ->) | [(rp & e' & R & _) | [(rp & e' & R & _)
      | [(rp & e' & R & _) | (rp & a & tl & R & _)]]]]; try congruence.
    split; congruence. }
  rewrite E. simpl. rewrite String.eqb_refl.
  f_equal. f_equal.
  unfold initialize, bind, get, store, modify, emit, lift in E. simpl in E.
  rewrite Hr in E. simpl in E. congruence.
Qed.

Lemma missing_entry_point_rethrown_witness :
  instantiateAddons (Sample.disk []) Sample.app None
    (val [Sample.info "w" None (Sample.config [] [])])
  = (inl (Thrown "ENOENT: no such file or directory, /addons/w/index.js"),
     {| packages := [Sample.info "w" (Some "index.js") (Sample.config [] [])];
        loaded := [];
        log := [GraphNew; GraphAdd "w"; GraphEach; Realpath "/addons/w/index.js"] |}).
Proof.
  apply (missing_entry_point_rethrown (Sample.disk []) Sample.app None "w"
           (snd (Sample.info "w" None (Sample.config [] [])))
           {| ea_main := None; before := []; after := [] |}
           (Thrown "ENOENT: no such file or directory, /addons/w/index.js"));
    reflexivity.
Defined.

(** ** The descriptor objects after the call *)

(** C4, as stated: the call leaves every descriptor as it found it.  It does
    not: a descriptor without [main] comes back with [main] set to
    [index.js]. *)
Lemma descriptors_mutated :
  ~ (forall (h : host) (parent : parentObject) (project : projectObject) (ds : descriptors),
       packages (snd (instantiateAddons h parent project (val ds))) = ds).
Proof.
  intros H.
  specialize (H (Sample.disk [("/addons/x/index.js", Sample.fn (Sample.plain "x"))])
                Sample.app None [Sample.info "x" None (Sample.config [] [])]).
  vm_compute in H. discriminate H.
Qed.

(** C4, amended: after the call the mapping has the same keys in the same
    order, and every descriptor has its [name], its [path] and every field of
    its manifest other than [main] unchanged; the one write the call makes to
    a descriptor is [pkg.main], set to the resolved relative entry point. *)
Theorem descriptors_frame (h : host) (parent : parentObject) (project : projectObject)
    (ds : descriptors) :
  frame ds (packages (snd (instantiateAddons h parent project (val ds)))) /\
  forall (ref : string) (info : addonInfo) (w : world),
    packages (snd (initialize h parent project ref info w))
      = update ref (write_main (resolveMain h (pkg info))) (packages w).
Proof.
  split.
  - destruct (instantiate_shape h parent project ds) as (r & evs & ld & P' & E & Hf & _).
    rewrite E. exact Hf.
  - intros ref info w.
    destruct (initialize_cases h parent project ref info w) as (r & evs & ld & E & _).
    now rewrite E.
Qed.

(** ** The entry point *)

(** C6, as stated: the entry point is the one the specification describes,
    for every descriptor.  It is not when a [main] is the empty string: an
    empty [ember-addon] [main] does not take precedence over the top-level
    [main]. *)
Lemma entry_point_not_as_specified :
  ~ (forall (h : host) (info : addonInfo),
       mainPath h info = join h (path info) (spec_resolveMain h (pkg info))).
Proof.
  intros H.
  specialize (H (Sample.disk [])
                (snd (Sample.info "x" (Some "app.js")
                        (Some {| ea_main := Some ""; before := []; after := [] |})))).
  vm_compute in H. discriminate H.
Qed.

(** C6, amended: with an empty-string [main] read as no [main], the entry
    point is the one the specification describes: the [ember-addon] [main]
    takes precedence over the top-level [main]; a missing [main], [.] and
    [./] give [index.js]; a [main] for which [path.extname] is empty gets
    [.js] appended; the result is joined with the path of the descriptor. *)
Theorem entry_point_resolution (h : host) (info : addonInfo) :
  mainPath h info
    = join h (path info) (spec_resolveMain h (without_empty_main (pkg info))).
Proof.
  unfold mainPath. f_equal.
  unfold resolveMain, spec_resolveMain, without_empty_main, drop_empty, truthy.
  destruct (pkg info) as [m ea other]. simpl.
  destruct ea as [[em b a]|]; simpl.
  - destruct em as [s|]; simpl.
    + destruct (String.eqb_spec s "") as [->|Hs]; simpl.
      * destruct m as [s'|]; [|reflexivity].
        destruct (String.eqb_spec s' ""); reflexivity.
      * destruct (String.eqb_spec s ""); [contradiction | reflexivity].
    + destruct m as [s'|]; [|reflexivity].
      destruct (String.eqb_spec s' ""); reflexivity.
  - destruct m as [s'|]; [|reflexivity].
    destruct (String.eqb_spec s' ""); reflexivity.
Qed.

(** ** The callable variant *)



(** ** Constructors that throw *)

(** C3: when the constructor of a descriptor throws [e], the call fails as a
    whole with a [SilentError] whose message names the addon and its path,
    and the sink of the parent, when there is one, has received [e] and
    nothing else, exactly once, as the last thing the call did. *)
Theorem constructor_failure (h : host) (parent : parentObject) (project : projectObject)
    (ds : descriptors) (key : string) (e : error) :
  In (New key (Some e)) (log (snd (instantiateAddons h parent project (val ds)))) ->
  exists info pre,
    lookup key ds = Some info /\
    fst (instantiateAddons h parent project (val ds))
      = inl (SilentError ("An error occurred in the constructor for "
                            ++ name info ++ " at " ++ path info)%string) /\
    reported (log (snd (instantiateAddons h parent project (val ds))))
      = (if ui parent then [e] else []) /\
    log (snd (instantiateAddons h parent project (val ds)))
      = pre ++ New key (Some e) :: (if ui parent then [WriteError e] else []) /\
    reported pre = [] /\ failures pre = [].
Proof.
  destruct (instantiate_shape h parent project ds) as (r & evs & ld & P' & E & _ & Hs).
  rewrite E. cbn [fst snd log]. intros Hin. apply failures_In in Hin.
  destruct Hs as [(_ & _ & -> & _) | [(_ & _ & _ & msg & done & _ & ->)
    | [(_ & _ & _ & e' & _ & _ & ->) | (_ & order & body & _ & -> & _ & Hr)]]].
  - destruct Hin.
  - destruct (graph_events_quiet done) as (_ & Hq & _). rewrite Hq in Hin. destruct Hin.
  - destruct (header_quiet ds) as (_ & Hq & _). rewrite Hq in Hin. destruct Hin.
  - destruct (header_quiet ds) as (_ & Hqf & Hqr).
    rewrite failures_app, Hqf in Hin. simpl in Hin.
    assert (forall x, quiet_events x -> ~ In (key, e) (failures x)) as Hquiet.
    { intros x [Hx _]. rewrite Hx. intros []. }
    destruct r as [l|l].
    + destruct Hr as [Hq | (key0 & e0 & info & Hl & -> & pre & -> & Hpf & Hpr)].
      { exfalso. exact (Hquiet body Hq Hin). }
      rewrite failures_app, Hpf in Hin. simpl in Hin.
      assert (failures (if ui parent then [WriteError e0] else []) = []) as Ht
        by (now destruct (ui parent)).
      rewrite Ht in Hin. destruct Hin as [[= -> ->]|[]].
      exists info, (header ds ++ pre). split; [assumption|].
      split; [reflexivity|]. split.
      { rewrite !reported_app, Hqr, Hpr. simpl. now destruct (ui parent). }
      split; [now rewrite app_assoc|].
      split; [now rewrite reported_app, Hqr, Hpr | now rewrite failures_app, Hqf, Hpf].
    + destruct Hr as (_ & _ & Hq). exfalso. exact (Hquiet body Hq Hin).
Qed.

Lemma constructor_failure_witness :
  exists info pre,
    lookup "z" [Sample.info "z" (Some "lib/foo") (Sample.config [] [])] = Some info /\
    fst (instantiateAddons
           (Sample.disk [("/addons/z/lib/foo.js", Sample.fn (Sample.failing (Thrown "boom")))])
           Sample.app None (val [Sample.info "z" (Some "lib/foo") (Sample.config [] [])]))
      = inl (SilentError ("An error occurred in the constructor for "
                            ++ name info ++ " at " ++ path info)%string) /\
    reported (log (snd (instantiateAddons
           (Sample.disk [("/addons/z/lib/foo.js", Sample.fn (Sample.failing (Thrown "boom")))])
           Sample.app None (val [Sample.info "z" (Some "lib/foo") (Sample.config [] [])]))))
      = (if ui Sample.app then [Thrown "boom"] else []) /\
    log (snd (instantiateAddons
           (Sample.disk [("/addons/z/lib/foo.js", Sample.fn (Sample.failing (Thrown "boom")))])
           Sample.app None (val [Sample.info "z" (Some "lib/foo") (Sample.config [] [])])))
      = pre ++ New "z" (Some (Thrown "boom"))
            :: (if ui Sample.app then [WriteError (Thrown "boom")] else []) /\
    reported pre = [] /\ failures pre = [].
Proof.
  apply (constructor_failure
           (Sample.disk [("/addons/z/lib/foo.js", Sample.fn (Sample.failing (Thrown "boom")))])
           Sample.app None [Sample.info "z" (Some "lib/foo") (Sample.config [] [])]
           "z" (Thrown "boom")).
  vm_compute. tauto.
Defined.

(** ** Ordering *)

(** C2: when the constraints of the descriptors contain a cycle, the call
    fails with a [CycleError] naming a node that lies on a cycle; it has
    built and resolved the graph and done nothing else: no path is resolved,
    no module loaded, no constructor invoked, no descriptor written.  The
    function is total, so the call always returns.  Every descriptor is
    taken to carry its [ember-addon] entry. *)
Theorem cycle_detected (h : host) (parent : parentObject) (project : projectObject)
    (ds : descriptors) (k : string) :
  configured ds ->
  clos_trans string (constraint ds) k k ->
  exists c,
    instantiateAddons h parent project (val ds)
      = (inl (CycleError c), {| packages := ds; loaded := []; log := header ds |}) /\
    clos_trans string (constraint ds) c c.
Proof.
  intros Hc Hk.
  destruct (instantiate_shape h parent project ds) as (r & evs & ld & P' & E & _ & Hs).
  rewrite E.
  destruct Hs as [(-> & _) | [(Hn & _) | [(_ & -> & -> & e & He & -> & ->)
    | (_ & order & body & He & _)]]].
  - apply clos_trans_first in Hk as (c & k' & i & cfg & [] & _).
  - contradiction.
  - apply graphOf_cycle in Hk.
    destruct (DAGMapFacts.resolve_cyclic string _ k (graphOf_empty_wf ds) Hk) as (c & R & Hcyc).
    unfold DAGMap.each in He. rewrite R in He. injection He as <-.
    exists c. split; [reflexivity | now apply graphOf_cycle].
  - exfalso. unfold DAGMap.each in He.
    destruct (DAGMap.resolve (graphOf ds DAGMap.empty)) as [e|l] eqn:R; [discriminate|].
    exact (resolved_acyclic ds l R k Hk).
Qed.

Lemma cycle_detected_witness :
  exists c,
    instantiateAddons (Sample.disk []) Sample.app None
      (val [Sample.info "x" None (Sample.config ["y"] ["y"]);
            Sample.info "y" None (Sample.config [] [])])
      = (inl (CycleError c),
         {| packages := [Sample.info "x" None (Sample.config ["y"] ["y"]);
                         Sample.info "y" None (Sample.config [] [])];
            loaded := [];
            log := header [Sample.info "x" None (Sample.config ["y"] ["y"]);
                           Sample.info "y" None (Sample.config [] [])] |}) /\
    clos_trans string
      (constraint [Sample.info "x" None (Sample.config ["y"] ["y"]);
                   Sample.info "y" None (Sample.config [] [])]) c c.
Proof.
  apply (cycle_detected (Sample.disk []) Sample.app None
           [Sample.info "x" None (Sample.config ["y"] ["y"]);
            Sample.info "y" None (Sample.config [] [])] "x").
  - repeat constructor; discriminate.
  - apply t_trans with (y := "y"); apply t_step;
      exists "x", (snd (Sample.info "x" None (Sample.config ["y"] ["y"]))),
             {| ea_main := None; before := ["y"]; after := ["y"] |};
      (split; [left; reflexivity | split; [reflexivity|]]).
    + left. split; [reflexivity | left; reflexivity].
    + right. split; [reflexivity | left; reflexivity].
Defined.



(** * Further properties of the function *)

(** ** The call, case by case *)

Lemma instantiate_cases (h : host) (parent : parentObject) (project : projectObject)
    (ds : descriptors) :
  (ds = [] /\
   instantiateAddons h parent project (val ds)
     = (inr [], {| packages := []; loaded := []; log := [] |})) \/
  (~ configured ds /\ exists msg done,
     instantiateAddons h parent project (val ds)
       = (inl (TypeError msg),
          {| packages := ds; loaded := []; log := GraphNew :: map GraphAdd done |})) \/
  (configured ds /\ exists e,
     DAGMap.each (graphOf ds DAGMap.empty) = inl e /\
     instantiateAddons h parent project (val ds)
       = (inl e, {| packages := ds; loaded := []; log := header ds |})) \/
  (configured ds /\ exists order,
     DAGMap.each (graphOf ds DAGMap.empty) = inr order /\
     instantiateAddons h parent project (val ds)
       = forEach h parent project order
           {| packages := ds; loaded := []; log := header ds |}).
Proof.
  destruct ds as [|entry rest]; [left; now split|].
  set (ds := entry :: rest).
  assert (instantiateAddons h parent project (val ds)
          = (emit GraphNew ;;;
             graph <- addAll ds DAGMap.empty ;;
             emit GraphEach ;;;
             order <- lift (DAGMap.each graph) ;;
             forEach h parent project order)
              {| packages := ds; loaded := []; log := [] |}) as Hout by reflexivity.
  unfold bind at 1 in Hout. unfold emit at 1 in Hout. cbn [packages loaded log app] in Hout.
  destruct (configured_dec ds) as [Hc|Hn].
  - unfold bind at 1 in Hout. rewrite (addAll_configured ds Hc) in Hout.
    unfold bind at 1 in Hout. unfold emit at 1 in Hout. unfold logged in Hout.
    cbn [packages loaded log app] in Hout.
    unfold bind at 1 in Hout. unfold lift at 1 in Hout.
    destruct (DAGMap.each (graphOf ds DAGMap.empty)) as [e|order] eqn:E.
    + right; right; left. split; [assumption|]. exists e. split; [reflexivity | exact Hout].
    + right; right; right. split; [assumption|]. exists order. split; [reflexivity | exact Hout].
  - destruct (addAll_unconfigured ds Hn DAGMap.empty
                {| packages := ds; loaded := []; log := [GraphNew] |}) as (msg & done & E).
    unfold bind at 1 in Hout. rewrite E in Hout.
    right; left. split; [assumption|]. exists msg, done. exact Hout.
Qed.

(** ** Reasoning along the loop *)

(** An invariant of the world that every step keeps is kept by the loop; a
    step that throws hands over to the failure condition. *)
Lemma forEach_hoare (h : host) (parent : parentObject) (project : projectObject)
    (I : world -> Prop) (F : error -> world -> Prop) :
  (forall ref info w, I w -> lookup ref (packages w) = Some info ->
     match initialize h parent project ref info w with
     | (inr _, w') => I w'
     | (inl e, w') => F e w'
     end) ->
  forall order w, I w ->
    match forEach h parent project order w with
    | (inr _, w') => I w'
    | (inl e, w') => F e w'
    end.
Proof.
  intros Hstep. induction order as [|[k [ref|]] rest IH]; intros w Hw.
  - exact Hw.
  - cbn [forEach]. unfold bind at 1. unfold visit. unfold bind at 1. unfold get at 1.
    cbn [snd]. destruct (lookup ref (packages w)) as [info|] eqn:Lk.
    + specialize (Hstep ref info w Hw Lk). unfold bind at 1.
      destruct (initialize h parent project ref info w) as [[e|a] w1]; [exact Hstep|].
      unfold ret at 1. specialize (IH w1 Hstep). unfold bind at 1.
      destruct (forEach h parent project rest w1) as [[e|l] w2]; exact IH.
    + unfold ret at 1. specialize (IH w Hw). unfold bind at 1.
      destruct (forEach h parent project rest w) as [[e|l] w2]; exact IH.
  - cbn [forEach]. unfold bind at 1. unfold visit. unfold bind at 1. unfold get at 1.
    cbn [snd]. unfold ret at 1. specialize (IH w Hw). unfold bind at 1.
    destruct (forEach h parent project rest w) as [[e|l] w2]; exact IH.
Qed.

(** What holds of every instance a step returns holds of every instance the
    loop returns. *)
Lemma forEach_Forall (h : host) (parent : parentObject) (project : projectObject)
    (Q : addon -> Prop) :
  (forall ref info w a w', initialize h parent project ref info w = (inr a, w') -> Q a) ->
  forall order w l w', forEach h parent project order w = (inr l, w') -> Forall Q l.
Proof.
  intros Hstep. induction order as [|[k [ref|]] rest IH]; intros w l w'.
  - intros [= <- _]. constructor.
  - cbn [forEach]. unfold bind at 1. unfold visit. unfold bind at 1. unfold get at 1.
    cbn [snd]. destruct (lookup ref (packages w)) as [info|] eqn:Lk.
    + unfold bind at 1.
      destruct (initialize h parent project ref info w) as [[e|a] w1] eqn:E1; [discriminate|].
      unfold ret at 1. unfold bind at 1.
      destruct (forEach h parent project rest w1) as [[e|l2] w2] eqn:E2; [discriminate|].
      unfold ret. intros [= <- _]. constructor; [eapply Hstep; eassumption | eapply IH; eassumption].
    + unfold ret at 1. unfold bind at 1.
      destruct (forEach h parent project rest w) as [[e|l2] w2] eqn:E2; [discriminate|].
      unfold ret. intros [= <- _]. eapply IH; eassumption.
  - cbn [forEach]. unfold bind at 1. unfold visit. unfold bind at 1. unfold get at 1.
    cbn [snd]. unfold ret at 1. unfold bind at 1.
    destruct (forEach h parent project rest w) as [[e|l2] w2] eqn:E2; [discriminate|].
    unfold ret. intros [= <- _]. eapply IH; eassumption.
Qed.

(** ** Events by kind *)

Lemma resolved_app (l1 l2 : list event) : resolved (l1 ++ l2) = resolved l1 ++ resolved l2.
Proof.
  induction l1 as [|ev r IH]; simpl; [reflexivity|].
  destruct ev; simpl; now rewrite ?IH.
Qed.

Lemma required_app (l1 l2 : list event) : required (l1 ++ l2) = required l1 ++ required l2.
Proof.
  induction l1 as [|ev r IH]; simpl; [reflexivity|].
  destruct ev; simpl; now rewrite ?IH.
Qed.

Lemma canonical_app (h : host) (l1 l2 : list event) :
  canonical h (l1 ++ l2) = canonical h l1 ++ canonical h l2.
Proof. unfold canonical. now rewrite resolved_app, flat_map_app. Qed.

Lemma resolved_In (l : list event) (q : string) : In (Realpath q) l <-> In q (resolved l).
Proof.
  induction l as [|ev r IH]; simpl; [tauto|].
  destruct ev; simpl; rewrite <- IH;
    try (split; [intros [H|H]; [discriminate | assumption] | now right]).
  split; (intros [H|H]; [inversion H; now left | now right]).
Qed.

Lemma graph_events_plain (done : list string) (tail : list event) :
  (forall ev, In ev tail -> ev = GraphEach) ->
  resolved (GraphNew :: map GraphAdd done ++ tail) = [] /\
  required (GraphNew :: map GraphAdd done ++ tail) = [].
Proof.
  intros Ht. simpl. rewrite resolved_app, required_app.
  assert (resolved (map GraphAdd done) = [] /\ required (map GraphAdd done) = []) as [-> ->].
  { induction done as [|x r IH]; simpl; [now split | exact IH]. }
  simpl. induction tail as [|ev r IH]; simpl; [now split|].
  rewrite (Ht ev (or_introl eq_refl)). apply IH. intros ev' H. apply Ht. now right.
Qed.

Lemma header_plain (ds : descriptors) :
  resolved (header ds) = [] /\ required (header ds) = [].
Proof.
  apply graph_events_plain. intros ev [<-|[]]. reflexivity.
Qed.

(** ** What reaches the sink *)

(** X1: the sink of the parent is written at most once per call, and only
    with what a constructor threw; the call then fails with a [SilentError].
    Errors from the graph, from [fs.realpathSync], from [require] and from
    [initializeAddons] are never reported to it. *)
Theorem sink_discipline (h : host) (parent : parentObject) (project : projectObject)
    (ds : descriptors) :
  reported (log (snd (instantiateAddons h parent project (val ds)))) = [] \/
  exists key e msg,
    ui parent = true /\
    reported (log (snd (instantiateAddons h parent project (val ds)))) = [e] /\
    In (New key (Some e)) (log (snd (instantiateAddons h parent project (val ds)))) /\
    fst (instantiateAddons h parent project (val ds)) = inl (SilentError msg).
Proof.
  destruct (instantiate_shape h parent project ds) as (r & evs & ld & P' & E & _ & Hs).
  rewrite E. cbn [fst snd log].
  destruct Hs as [(_ & _ & -> & _) | [(_ & _ & _ & msg & done & _ & ->)
    | [(_ & _ & _ & e' & _ & _ & ->) | (_ & order & body & _ & -> & _ & Hr)]]].
  - now left.
  - left. apply graph_events_quiet.
  - left. apply header_quiet.
  - destruct (header_quiet ds) as (_ & Hqf & Hqr). rewrite reported_app, Hqr. simpl.
    destruct r as [e|l].
    + destruct Hr as [[_ Hq] | (key & e0 & info & _ & -> & pre & -> & Hpf & Hpr)]; [now left|].
      rewrite reported_app, Hpr. simpl. destruct (ui parent) eqn:U; [|now left].
      right. exists key, e0, (constructorMessage info).
      split; [reflexivity|]. split; [reflexivity|]. split; [|reflexivity].
      right. apply in_or_app. right. apply in_or_app. right. now left.
    + left. apply Hr.
Qed.

(** ** Resolving, loading, constructing *)

Lemma step_outcome (h : host) (parent : parentObject) (project : projectObject)
    (ref : string) (info : addonInfo) (w : world) :
  exists r evs ld,
    initialize h parent project ref info w
      = (r, {| packages := update ref (write_main (resolveMain h (pkg info))) (packages w);
               loaded := ld; log := log w ++ evs |}) /\
    ((exists e, realpathSync h (mainPath h info) = inl e /\ r = inl e /\
                resolved evs = [mainPath h info] /\ required evs = [] /\ constructed evs = []) \/
     (exists rp, realpathSync h (mainPath h info) = inr rp /\
                 resolved evs = [mainPath h info] /\ required evs = [rp] /\
                 (constructed evs = [ref] \/ (constructed evs = [] /\ exists e, r = inl e)))).
Proof.
  destruct (initialize_cases h parent project ref info w) as (r & evs & ld & E & Hc).
  exists r, evs, ld. split; [exact E|].
  destruct Hc as [(e & R & -> & ->) | [(rp & e & R & -> & ->) | [(rp & e & R & -> & ->)
    | [(rp & e & R & -> & ->) | (rp & a & tail & R & -> & Ht & ->)]]]].
  - left. exists e. now repeat split.
  - right. exists rp. repeat split; try assumption. right. split; [reflexivity | now exists e].
  - right. exists rp. repeat split; try assumption; destruct (ui parent); auto.
  - right. exists rp. repeat split; try assumption. now left.
  - right. exists rp. destruct Ht as [-> | ->]; repeat split; try assumption; now left.
Qed.

(** X2: the entry points loaded by [require(mainRealPath)] on line 90 are
    exactly the paths [fs.realpathSync] returned, in the same order, so no
    entry point is loaded from a path that was not canonicalized or after a
    failed resolution; and no constructor is invoked without its entry point
    having been loaded.  The fixed [require('./addon')] of line 99 is not an
    entry point and is not counted. *)
Theorem require_follows_realpath (h : host) (parent : parentObject) (project : projectObject)
    (ds : descriptors) :
  required (log (snd (instantiateAddons h parent project (val ds))))
    = canonical h (log (snd (instantiateAddons h parent project (val ds)))) /\
  List.length (constructed (log (snd (instantiateAddons h parent project (val ds)))))
    <= List.length (required (log (snd (instantiateAddons h parent project (val ds))))).
Proof.
  set (I := fun w : world =>
              required (log w) = canonical h (log w) /\
              List.length (constructed (log w)) <= List.length (required (log w))).
  assert (forall ref info w, I w -> lookup ref (packages w) = Some info ->
            match initialize h parent project ref info w with
            | (inr _, w') => I w'
            | (inl e, w') => (fun _ => I) e w'
            end) as Hstep.
  { intros ref info w [Hreq Hlen] _.
    destruct (step_outcome h parent project ref info w) as (r & evs & ld & E & Hc).
    rewrite E.
    assert (I {| packages := update ref (write_main (resolveMain h (pkg info))) (packages w);
                 loaded := ld; log := log w ++ evs |}) as HI.
    { unfold I. cbn [log]. rewrite required_app, canonical_app, constructed_app, !length_app.
      unfold canonical at 2.
      destruct Hc as [(e & R & _ & -> & -> & ->) | (rp & R & -> & -> & Hcon)];
        simpl; rewrite R; simpl; rewrite Hreq in Hlen |- *.
      - split; [reflexivity | lia].
      - split; [reflexivity|].
        destruct Hcon as [-> | [-> _]]; simpl; lia. }
    now destruct r. }
  destruct (instantiate_cases h parent project ds)
    as [(_ & ->) | [(_ & msg & done & ->) | [(_ & e & _ & ->) | (_ & order & _ & ->)]]];
    cbn [snd log].
  - now split.
  - unfold canonical.
    destruct (graph_events_plain done [] (fun ev (H : In ev []) => match H with end))
      as [Hr Hq]. rewrite app_nil_r in Hr, Hq.
    destruct (graph_events_quiet done) as [Hc _].
    rewrite Hr, Hq, Hc. now split.
  - unfold canonical. destruct (header_plain ds) as [-> ->].
    destruct (header_quiet ds) as [-> _]. now split.
  - pose proof (forEach_hoare h parent project I (fun _ => I) Hstep order
                  {| packages := ds; loaded := []; log := header ds |}) as H.
    assert (I {| packages := ds; loaded := []; log := header ds |}) as H0.
    { unfold I, canonical. cbn [log]. destruct (header_plain ds) as [-> ->].
      destruct (header_quiet ds) as [-> _]. now split. }
    specialize (H H0).
    destruct (forEach h parent project order _) as [[e|l] w']; exact H.
Qed.

(** X3: whenever [fs.realpathSync] throws during a call, on whichever
    descriptor, the call fails with exactly what it threw: the error is
    neither wrapped nor replaced. *)
Theorem realpath_failure_is_final (h : host) (parent : parentObject) (project : projectObject)
    (ds : descriptors) (q : string) (e : error) :
  In (Realpath q) (log (snd (instantiateAddons h parent project (val ds)))) ->
  realpathSync h q = inl e ->
  fst (instantiateAddons h parent project (val ds)) = inl e.
Proof.
  set (I := fun w : world =>
              forall q', In q' (resolved (log w)) -> exists p, realpathSync h q' = inr p).
  set (F := fun (e0 : error) (w : world) =>
              forall q' e', In q' (resolved (log w)) -> realpathSync h q' = inl e' -> e' = e0).
  assert (forall ref info w, I w -> lookup ref (packages w) = Some info ->
            match initialize h parent project ref info w with
            | (inr _, w') => I w'
            | (inl e0, w') => F e0 w'
            end) as Hstep.
  { intros ref info w HI _.
    destruct (step_outcome h parent project ref info w) as (r & evs & ld & E & Hc).
    rewrite E.
    destruct Hc as [(e0 & R & -> & Hres & _) | (rp & R & Hres & _)].
    - intros q' e' Hin Hq'. cbn [log] in Hin. rewrite resolved_app, Hres in Hin.
      apply in_app_iff in Hin as [Hin | [<- | []]].
      + destruct (HI q' Hin) as [p Hp]. congruence.
      + congruence.
    - assert (I {| packages := update ref (write_main (resolveMain h (pkg info))) (packages w);
                   loaded := ld; log := log w ++ evs |}) as HI'.
      { intros q' Hin. cbn [log] in Hin. rewrite resolved_app, Hres in Hin.
        apply in_app_iff in Hin as [Hin | [<- | []]]; [now apply HI | now exists rp]. }
      destruct r as [e0|a]; [|exact HI'].
      intros q' e' Hin Hq'. destruct (HI' q' Hin) as [p Hp]. congruence. }
  intros Hin Hq. apply resolved_In in Hin. revert Hin.
  destruct (instantiate_cases h parent project ds)
    as [(_ & ->) | [(_ & msg & done & ->) | [(_ & e0 & _ & ->) | (_ & order & _ & ->)]]];
    cbn [fst snd log].
  - intros [].
  - destruct (graph_events_plain done [] (fun ev (H : In ev []) => match H with end))
      as [Hr _]. rewrite app_nil_r in Hr. rewrite Hr. intros [].
  - destruct (header_plain ds) as [-> _]. intros [].
  - pose proof (forEach_hoare h parent project I F Hstep order
                  {| packages := ds; loaded := []; log := header ds |}) as H.
    assert (I {| packages := ds; loaded := []; log := header ds |}) as H0.
    { intros q' Hin. cbn [log] in Hin. destruct (header_plain ds) as [Hr _].
      rewrite Hr in Hin. destruct Hin. }
    specialize (H H0).
    destruct (forEach h parent project order _) as [[e0|l] w']; cbn [fst snd]; intros Hin.
    + f_equal. symmetry. exact (H q e Hin Hq).
    + destruct (H q Hin) as [p Hp]. congruence.
Qed.

Lemma realpath_failure_is_final_witness :
  fst (instantiateAddons
         (Sample.disk [("/addons/x/index.js", Sample.fn (Sample.plain "x"))])
         Sample.app None
         (val [Sample.info "x" None (Sample.config [] []);
               Sample.info "w" None (Sample.config [] ["x"])]))
  = inl (Thrown "ENOENT: no such file or directory, /addons/w/index.js").
Proof.
  apply (realpath_failure_is_final
           (Sample.disk [("/addons/x/index.js", Sample.fn (Sample.plain "x"))])
           Sample.app None
           [Sample.info "x" None (Sample.config [] []);
            Sample.info "w" None (Sample.config [] ["x"])]
           "/addons/w/index.js").
  - vm_compute. tauto.
  - reflexivity.
Defined.

(** ** One construction per descriptor *)

Lemma present_In {A : Type} (order : list (string * option A)) (k : string) :
  In k (present order) -> exists ref, In (k, Some ref) order.
Proof.
  induction order as [|[x [ref|]] r IH]; simpl; [tauto | |].
  - intros [<-|H]; [exists ref; now left|]. destruct (IH H) as [ref' H']. exists ref'. now right.
  - intros H. destruct (IH H) as [ref' H']. exists ref'. now right.
Qed.

Lemma present_NoDup {A : Type} (order : list (string * option A)) :
  NoDup (map fst order) -> NoDup (present order).
Proof.
  induction order as [|[x [ref|]] r IH]; simpl; intros Hnd; [constructor | |];
    inversion Hnd as [|? ? Hx Hr]; subst; [|now apply IH].
  constructor; [|now apply IH].
  intros H. apply present_In in H as [ref' H]. apply Hx.
  apply in_map_iff. now exists (x, Some ref').
Qed.

Lemma each_NoDup (ds : descriptors) (order : list (string * option string)) :
  DAGMap.each (graphOf ds DAGMap.empty) = inr order -> NoDup (map fst order).
Proof.
  unfold DAGMap.each.
  destruct (DAGMap.resolve (graphOf ds DAGMap.empty)) as [e|l] eqn:R; [discriminate|].
  intros [= <-]. rewrite map_map. simpl. rewrite map_id.
  destruct (DAGMapFacts.resolve_sound string _ l (graphOf_empty_wf ds) R) as (Hperm & _).
  eapply Permutation_NoDup; [exact Hperm | apply graphOf_empty_wf].
Qed.

(** X4: whatever the outcome, a constructor is invoked at most once per
    descriptor and only for keys of the mapping, never for a name that
    occurs in constraints alone; and a call that succeeds returns exactly
    one instance per constructor invocation. *)
Theorem constructed_once (h : host) (parent : parentObject) (project : projectObject)
    (ds : descriptors) :
  NoDup (constructed (log (snd (instantiateAddons h parent project (val ds))))) /\
  incl (constructed (log (snd (instantiateAddons h parent project (val ds))))) (map fst ds) /\
  forall l, fst (instantiateAddons h parent project (val ds)) = inr l ->
            List.length l
              = List.length (constructed (log (snd (instantiateAddons h parent project (val ds))))).
Proof.
  destruct (instantiate_shape h parent project ds) as (r & evs & ld & P' & E & _ & Hs).
  rewrite E. cbn [fst snd log].
  destruct Hs as [(_ & -> & -> & _) | [(_ & _ & _ & msg & done & -> & ->)
    | [(_ & _ & _ & e' & _ & -> & ->) | (_ & order & body & He & -> & Hpre & Hr)]]].
  - split; [constructor|]. split; [intros x []|]. now intros l [= <-].
  - destruct (graph_events_quiet done) as [-> _].
    split; [constructor|]. split; [intros x [] | discriminate].
  - destruct (header_quiet ds) as [-> _].
    split; [constructor|]. split; [intros x [] | discriminate].
  - destruct (header_quiet ds) as [Hh _]. rewrite constructed_app, Hh. simpl.
    pose proof (present_NoDup order (each_NoDup ds order He)) as Hnd.
    destruct Hpre as [tl Htl].
    split; [rewrite Htl in Hnd; now apply NoDup_app_remove_r in Hnd|].
    split.
    + intros k Hk.
      assert (In k (present order)) as Hin by (rewrite Htl; apply in_app_iff; now left).
      apply present_In in Hin as [ref Hin]. now apply (each_refs ds order He k ref).
    + intros l ->. destruct Hr as (-> & -> & _). reflexivity.
Qed.

(** ** The entry point written back *)

Lemma length_append (a b : string) :
  String.length (a ++ b)%string = String.length a + String.length b.
Proof. induction a as [|c a IH]; simpl; [reflexivity | now rewrite IH]. Qed.

Lemma resolveMain_proper (h : host) (p : packageJson) :
  resolveMain h p <> "" /\ resolveMain h p <> "." /\ resolveMain h p <> "./".
Proof.
  unfold resolveMain.
  destruct (if truthy _ then _ else main p) as [m|]; [|repeat split; discriminate].
  destruct (String.eqb_spec m "") as [->|H0]; simpl; [repeat split; discriminate|].
  destruct (String.eqb_spec m ".") as [->|H1]; simpl; [repeat split; discriminate|].
  destruct (String.eqb_spec m "./") as [->|H2]; simpl; [repeat split; discriminate|].
  destruct (String.eqb (extname h m) ""); [|now repeat split].
  repeat split; intros H; apply (f_equal String.length) in H;
    rewrite length_append in H; simpl in H; lia.
Qed.

(** X5: the [main] that line 80 writes into a manifest is never empty and
    never names the current directory, so the written manifest always has a
    truthy [main]. *)
Theorem written_main_is_a_file (h : host) (p : packageJson) :
  resolveMain h p <> "" /\ resolveMain h p <> "." /\ resolveMain h p <> "./" /\
  truthy (main (set_main (resolveMain h p) p)) = true.
Proof.
  destruct (resolveMain_proper h p) as (H0 & H1 & H2).
  repeat split; try assumption.
  simpl. now destruct (String.eqb_spec (resolveMain h p) "").
Qed.

(** X6: resolving a manifest again after line 80 has written into it gives
    the same entry point, provided [path.extname] finds an extension on that
    entry point; a descriptor instantiated a second time, under another
    parent, is therefore loaded from the same file. *)
Theorem resolveMain_stable (h : host) (p : packageJson) :
  extname h (resolveMain h p) <> "" ->
  resolveMain h (set_main (resolveMain h p) p) = resolveMain h p.
Proof.
  intros Hext. destruct (resolveMain_proper h p) as (H0 & H1 & H2).
  unfold resolveMain at 1. cbn [ember_addon main set_main].
  destruct (truthy match ember_addon p with
                   | Some config => ea_main config
                   | None => None
                   end) eqn:T.
  - unfold resolveMain. now rewrite T.
  - destruct (String.eqb_spec (resolveMain h p) ""); [contradiction|].
    destruct (String.eqb_spec (resolveMain h p) "."); [contradiction|].
    destruct (String.eqb_spec (resolveMain h p) "./"); [contradiction|].
    simpl. now destruct (String.eqb_spec (extname h (resolveMain h p)) "").
Qed.

Lemma resolveMain_stable_witness :
  resolveMain (Sample.disk [])
    (set_main "lib/foo.js" (pkg (snd (Sample.info "z" (Some "lib/foo") (Sample.config [] [])))))
  = "lib/foo.js".
Proof.
  apply (resolveMain_stable (Sample.disk [])
           (pkg (snd (Sample.info "z" (Some "lib/foo") (Sample.config [] []))))).
  vm_compute. discriminate.
Defined.

(** ** The descriptors after the call, exactly *)

Lemma forEach_cons_some (h : host) (parent : parentObject) (project : projectObject)
    (k ref : string) (info : addonInfo) (rest : list (string * option string)) (w : world) :
  lookup ref (packages w) = Some info ->
  forEach h parent project ((k, Some ref) :: rest) w
    = match initialize h parent project ref info w with
      | (inr a, w1) =>
          match forEach h parent project rest w1 with
          | (inr l, w2) => (inr (a :: l), w2)
          | (inl e, w2) => (inl e, w2)
          end
      | (inl e, w1) => (inl e, w1)
      end.
Proof.
  intros Lk. cbn [forEach]. unfold bind at 1. unfold visit. unfold bind at 1. unfold get at 1.
  cbn [snd]. rewrite Lk. unfold bind at 1.
  destruct (initialize h parent project ref info w) as [[e|a] w1]; [reflexivity|].
  unfold ret at 1. unfold bind at 1.
  now destruct (forEach h parent project rest w1) as [[e|l] w2].
Qed.

Lemma forEach_cons_none (h : host) (parent : parentObject) (project : projectObject)
    (k : string) (rest : list (string * option string)) (w : world) :
  forEach h parent project ((k, None) :: rest) w = forEach h parent project rest w.
Proof.
  cbn [forEach]. unfold bind at 1. unfold visit. unfold bind at 1. unfold get at 1.
  cbn [snd]. unfold ret at 1. unfold bind at 1.
  now destruct (forEach h parent project rest w) as [[e|l] w2].
Qed.

Lemma written_nil (h : host) (ds : descriptors) : written h [] ds = ds.
Proof. unfold written. simpl. apply map_id. Qed.

Lemma written_skip (h : host) (k : string) (v : list string) (ds : descriptors) :
  ~ In k (map fst ds) -> written h (k :: v) ds = written h v ds.
Proof.
  intros Hk. unfold written. apply map_ext_in. intros [x i] Hin. simpl.
  destruct (String.eqb_spec x k) as [->|Hne]; [|reflexivity].
  exfalso. apply Hk. apply in_map_iff. now exists (k, i).
Qed.

Lemma written_lookup (h : host) (k : string) (v : list string) (ds : descriptors) :
  ~ In k v -> lookup k (written h v ds) = lookup k ds.
Proof.
  intros Hk. induction ds as [|[x i] r IH]; simpl; [reflexivity|].
  destruct (String.eqb_spec x k) as [->|Hne].
  - apply mem_false in Hk. rewrite Hk. simpl. now rewrite String.eqb_refl.
  - destruct (mem x v); simpl; destruct (String.eqb_spec x k); try contradiction; exact IH.
Qed.

Lemma written_update (h : host) (k : string) (info : addonInfo) (v : list string)
    (ds : descriptors) :
  NoDup (map fst ds) -> lookup k ds = Some info -> ~ In k v ->
  update k (write_main (resolveMain h (pkg info))) (written h v ds) = written h (k :: v) ds.
Proof.
  intros Hnd Hl Hk. induction ds as [|[x i] r IH]; simpl in *; [discriminate|].
  inversion Hnd as [|? ? Hx Hr]; subst.
  destruct (String.eqb_spec x k) as [->|Hne].
  - injection Hl as ->. pose proof Hk as Hm. apply mem_false in Hm. rewrite Hm. simpl.
    rewrite String.eqb_refl. fold (written h v r). fold (written h (k :: v) r).
    now rewrite written_skip.
  - fold (written h v r). fold (written h (k :: v) r).
    destruct (mem x v); simpl; destruct (String.eqb_spec x k); try contradiction;
      now rewrite IH.
Qed.

Lemma written_all (h : host) (v : list string) (ds : descriptors) :
  incl (map fst ds) v ->
  written h v ds
    = map (fun entry => (fst entry, write_main (resolveMain h (pkg (snd entry))) (snd entry))) ds.
Proof.
  intros Hin. unfold written. apply map_ext_in. intros [x i] Hx. cbn [fst snd].
  assert (mem x v = true) as ->; [|reflexivity].
  apply mem_In, Hin. apply in_map_iff. now exists (x, i).
Qed.

Lemma forEach_written (h : host) (parent : parentObject) (project : projectObject)
    (ds : descriptors) :
  NoDup (map fst ds) ->
  forall order w v r w',
    NoDup (map fst order) ->
    (forall k ref, In (k, Some ref) order -> ref = k /\ In k (map fst ds)) ->
    (forall k, In k (map fst order) -> ~ In k v) ->
    packages w = written h v ds ->
    forEach h parent project order w = (r, w') ->
    exists v',
      packages w' = written h v' ds /\
      incl v v' /\
      (forall k, In k (constructed (log w')) -> In k (constructed (log w)) \/ In k v') /\
      (forall l, r = inr l -> incl (present order) v').
Proof.
  intros Hds. induction order as [|[k [ref|]] rest IH]; intros w v r w' Hnd Hrefs Hfresh Hp.
  - intros [= <- <-]. exists v. split; [assumption|]. split; [apply incl_refl|].
    split; [auto | intros l _ x []].
  - inversion Hnd as [|? ? Hk Hrest]; subst.
    destruct (Hrefs k ref (or_introl eq_refl)) as [-> Hkey].
    assert (~ In k v) as Hkv by (apply Hfresh; now left).
    destruct (lookup k ds) as [info|] eqn:Lk; [|apply lookup_None in Lk; contradiction].
    assert (lookup k (packages w) = Some info) as Lw by (now rewrite Hp, written_lookup).
    rewrite (forEach_cons_some h parent project k k info rest w Lw).
    destruct (step_outcome h parent project k info w) as (r1 & evs & ld & E & Hc).
    rewrite E. rewrite Hp, (written_update h k info v ds Hds Lk Hkv).
    assert (forall x, In x (constructed evs) -> x = k) as Hcon.
    { destruct Hc as [(e & _ & _ & _ & _ & ->) | (rp & _ & _ & _ & [-> | [-> _]])];
        simpl; intuition. }
    destruct r1 as [e|a].
    + intros [= <- <-]. exists (k :: v). cbn [packages log].
      split; [reflexivity|]. split; [now apply incl_tl, incl_refl|].
      split; [|discriminate].
      intros x Hx. rewrite constructed_app in Hx. apply in_app_iff in Hx as [Hx|Hx];
        [now left | right; left; symmetry; now apply Hcon].
    + set (w1 := {| packages := written h (k :: v) ds; loaded := ld; log := log w ++ evs |}).
      destruct (forEach h parent project rest w1) as [r2 w2] eqn:E2.
      destruct (IH w1 (k :: v) r2 w2 Hrest) as (v' & Hp' & Hin & Hcon' & Hsucc); auto.
      { intros k' ref' H. apply Hrefs. now right. }
      { intros k' H [<-|H']; [contradiction|]. apply (Hfresh k'); [now right | assumption]. }
      assert (forall x, In x (constructed (log w2)) -> In x (constructed (log w)) \/ In x v')
        as Hall.
      { intros x Hx. destruct (Hcon' x Hx) as [Hx'|Hx']; [|now right].
        unfold w1 in Hx'. cbn [log] in Hx'. rewrite constructed_app in Hx'.
        apply in_app_iff in Hx' as [Hx'|Hx']; [now left|].
        right. apply Hin. left. symmetry. now apply Hcon. }
      destruct r2 as [e|l]; intros [= <- <-]; exists v';
        (split; [assumption|]); (split; [intros x Hx; apply Hin; now right|]);
        (split; [exact Hall|]).
      * discriminate.
      * intros l0 _ x [<-|Hx]; [apply Hin; now left | now apply (Hsucc l)].
  - inversion Hnd as [|? ? Hk Hrest]; subst.
    rewrite forEach_cons_none. intros E.
    apply (IH w v r w' Hrest); auto.
    + intros k' ref' H. apply Hrefs. now right.
    + intros k' H. apply Hfresh. now right.
Qed.

Lemma keys_present (ds : descriptors) (order : list (string * option string)) :
  NoDup (map fst ds) -> configured ds ->
  DAGMap.each (graphOf ds DAGMap.empty) = inr order ->
  incl (map fst ds) (present order).
Proof.
  intros Hnd Hc. unfold DAGMap.each.
  destruct (DAGMap.resolve (graphOf ds DAGMap.empty)) as [e|l] eqn:R; [discriminate|].
  intros [= <-].
  assert (DAGMap.added (graphOf ds DAGMap.empty)
          = map (fun entry => (fst entry, fst entry)) ds) as Hadded.
  { rewrite graphOf_added; [reflexivity | assumption | exact Hnd]. }
  rewrite (present_filter (map fst ds)) by (intros k; rewrite Hadded; apply lookup_dup).
  destruct (DAGMapFacts.resolve_sound string _ l (graphOf_empty_wf ds) R) as (Hperm & _).
  intros k Hk. apply filter_In. split; [|now apply mem_In].
  apply (Permutation_in _ Hperm). unfold DAGMap.nodes. rewrite Hadded, map_map.
  apply in_app_iff. now left.
Qed.

(** X7: whatever the outcome of the call, each descriptor of a mapping is
    left exactly as it was or has had its [pkg.main] replaced by the entry
    point resolved from its own original manifest; every descriptor whose
    constructor was invoked is among the rewritten ones. *)
Theorem descriptors_written (h : host) (parent : parentObject) (project : projectObject)
    (ds : descriptors) :
  NoDup (map fst ds) ->
  exists visited,
    packages (snd (instantiateAddons h parent project (val ds))) = written h visited ds /\
    incl (constructed (log (snd (instantiateAddons h parent project (val ds))))) visited.
Proof.
  intros Hnd.
  destruct (instantiate_cases h parent project ds)
    as [(-> & ->) | [(_ & msg & done & ->) | [(_ & e & _ & ->) | (_ & order & He & ->)]]];
    cbn [snd packages log].
  - exists []. split; [reflexivity | intros x []].
  - exists []. rewrite written_nil. destruct (graph_events_quiet done) as [-> _].
    split; [reflexivity | intros x []].
  - exists []. rewrite written_nil. destruct (header_quiet ds) as [-> _].
    split; [reflexivity | intros x []].
  - destruct (forEach h parent project order _) as [r w'] eqn:E.
    destruct (forEach_written h parent project ds Hnd order
                {| packages := ds; loaded := []; log := header ds |} [] r w'
                (each_NoDup ds order He) (each_refs ds order He)
                (fun k _ (H : In k []) => H) (eq_sym (written_nil h ds)) E)
      as (v' & Hp & _ & Hcon & _).
    exists v'. split; [exact Hp|]. intros k Hk. destruct (Hcon k Hk) as [H|H]; [|exact H].
    cbn [log] in H. destruct (header_quiet ds) as [Hh _]. rewrite Hh in H. destruct H.
Qed.

Lemma descriptors_written_witness :
  exists visited,
    packages (snd (instantiateAddons
                     (Sample.disk [("/addons/x/index.js", Sample.fn (Sample.plain "x"))])
                     Sample.app None
                     (val [Sample.info "x" None (Sample.config [] []);
                           Sample.info "w" None (Sample.config [] ["x"])])))
      = written (Sample.disk [("/addons/x/index.js", Sample.fn (Sample.plain "x"))]) visited
          [Sample.info "x" None (Sample.config [] []);
           Sample.info "w" None (Sample.config [] ["x"])] /\
    incl (constructed (log (snd (instantiateAddons
                     (Sample.disk [("/addons/x/index.js", Sample.fn (Sample.plain "x"))])
                     Sample.app None
                     (val [Sample.info "x" None (Sample.config [] []);
                           Sample.info "w" None (Sample.config [] ["x"])]))))) visited.
Proof.
  apply (descriptors_written
           (Sample.disk [("/addons/x/index.js", Sample.fn (Sample.plain "x"))])
           Sample.app None
           [Sample.info "x" None (Sample.config [] []);
            Sample.info "w" None (Sample.config [] ["x"])]).
  repeat constructor; simpl; intuition discriminate.
Defined.

(** X8: when a call on a mapping succeeds, every descriptor has had its
    [pkg.main] set to the entry point resolved from its original manifest,
    and nothing else in the mapping has changed. *)
Theorem success_writes_every_main (h : host) (parent : parentObject)
    (project : projectObject) (ds : descriptors) (l : list addon) :
  NoDup (map fst ds) ->
  fst (instantiateAddons h parent project (val ds)) = inr l ->
  packages (snd (instantiateAddons h parent project (val ds)))
    = map (fun entry => (fst entry, write_main (resolveMain h (pkg (snd entry))) (snd entry))) ds.
Proof.
  intros Hnd.
  destruct (instantiate_cases h parent project ds)
    as [(-> & ->) | [(_ & msg & done & ->) | [(_ & e & _ & ->) | (Hc & order & He & ->)]]];
    cbn [fst snd packages]; try discriminate.
  - reflexivity.
  - destruct (forEach h parent project order _) as [r w'] eqn:E. cbn [fst snd].
    intros ->.
    destruct (forEach_written h parent project ds Hnd order
                {| packages := ds; loaded := []; log := header ds |} [] (inr l) w'
                (each_NoDup ds order He) (each_refs ds order He)
                (fun k _ (H : In k []) => H) (eq_sym (written_nil h ds)) E)
      as (v' & Hp & _ & _ & Hsucc).
    rewrite Hp. apply written_all.
    intros k Hk. apply (Hsucc l eq_refl). now apply (keys_present ds order Hnd Hc He).
Qed.

Lemma success_writes_every_main_witness :
  packages (snd (instantiateAddons
                   (Sample.disk [("/addons/x/index.js", Sample.fn (Sample.plain "x"));
                                 ("/addons/y/lib/y.js", Sample.fn (Sample.plain "y"))])
                   Sample.app None
                   (val [Sample.info "x" None (Sample.config [] ["y"]);
                         Sample.info "y" (Some "lib/y") (Sample.config [] [])])))
  = [Sample.info "x" (Some "index.js") (Sample.config [] ["y"]);
     Sample.info "y" (Some "lib/y.js") (Sample.config [] [])].
Proof.
  apply (success_writes_every_main
           (Sample.disk [("/addons/x/index.js", Sample.fn (Sample.plain "x"));
                         ("/addons/y/lib/y.js", Sample.fn (Sample.plain "y"))])
           Sample.app None
           [Sample.info "x" None (Sample.config [] ["y"]);
            Sample.info "y" (Some "lib/y") (Sample.config [] [])]
           (match fst (instantiateAddons
                   (Sample.disk [("/addons/x/index.js", Sample.fn (Sample.plain "x"));
                                 ("/addons/y/lib/y.js", Sample.fn (Sample.plain "y"))])
                   Sample.app None
                   (val [Sample.info "x" None (Sample.config [] ["y"]);
                         Sample.info "y" (Some "lib/y") (Sample.config [] [])]))
            with inr l => l | inl _ => [] end)).
  - repeat constructor; simpl; intuition discriminate.
  - reflexivity.
Defined.

(** ** One step, followed through *)

Opaque AddonConstructor.

(** The step for a descriptor whose entry point resolves and loads, in terms
    of what the constructor and [initializeAddons] do. *)
Lemma initialize_loaded (h : host) (parent : parentObject) (project : projectObject)
    (ref : string) (info : addonInfo) (w : world) (rp : string) (m : moduleValue) :
  realpathSync h (mainPath h info) = inr rp ->
  load h w rp = inr m ->
  exists ld,
    initialize h parent project ref info w
    = let C := AddonConstructor m (dirname h rp)
                 (set_main (resolveMain h (pkg info)) (pkg info)) rp in
      let P := update ref (write_main (resolveMain h (pkg info))) (packages w) in
      let seen := [Realpath (mainPath h info); Load rp] in
      match construct C (proto_root C) (proto_pkg C) parent project with
      | inl e =>
          (inl (SilentError (constructorMessage info)),
           {| packages := P; loaded := ld;
              log := log w ++ seen ++ New ref (Some e)
                             :: (if ui parent then [WriteError e] else []) |})
      | inr a =>
          match fresh_initializeAddons a with
          | Some (inl e) =>
              (inl e, {| packages := P; loaded := ld;
                         log := log w ++ seen ++ [New ref None; InitializeAddons ref] |})
          | other =>
              let tail := match other with Some _ => [InitializeAddons ref] | None => [] end in
              (inr {| addon_name := fresh_name a;
                      addons := match other with Some (inr kids) => kids | _ => [] end;
                      constructor :=
                        set_meta {| modulePath := rp; lookupDuration := 0;
                                    initializeIn :=
                                      now h (List.length (log w) + 3 + List.length tail)
                                      - now h (List.length (log w)) |} C |},
               {| packages := P; loaded := ld;
                  log := log w ++ seen ++ New ref None :: tail |})
          end
      end.
Proof.
  intros R L. unfold load in L.
  unfold initialize, bind, get, store, modify, emit, lift, throw, ret. cbn [packages loaded log].
  rewrite R. cbn [packages loaded log]. unfold load. cbn [packages loaded log]. rewrite L.
  set (C := AddonConstructor m (dirname h rp) _ rp). clearbody C.
  cbv zeta.
  destruct m as [f|o]; unfold remember, modify, ret; cbn [packages loaded log];
    (destruct (construct C (proto_root C) (proto_pkg C) parent project) as [e|a];
     [ destruct (ui parent); cbn [packages loaded log]; rewrite <- ?app_assoc;
       eexists; reflexivity
     | destruct (fresh_initializeAddons a) as [[e|kids]|]; cbn [packages loaded log];
       rewrite <- ?app_assoc; cbn [app List.length];
       rewrite ?length_app; cbn [List.length];
       [ eexists; reflexivity
       | replace (List.length (log w) + 3 + 1) with (List.length (log w) + 4)
           by lia; eexists; reflexivity
       | replace (List.length (log w) + 3 + 0) with (List.length (log w) + 3)
           by lia; eexists; reflexivity ] ]).
Qed.

Transparent AddonConstructor.

Lemma initialize_success (h : host) (parent : parentObject) (project : projectObject)
    (ref : string) (info : addonInfo) (w : world) (a : addon) (w' : world) :
  initialize h parent project ref info w = (inr a, w') ->
  exists rp m n,
    realpathSync h (mainPath h info) = inr rp /\
    load h w rp = inr m /\
    List.length (log w) <= n /\
    constructor a
      = set_meta {| modulePath := rp; lookupDuration := 0;
                    initializeIn := now h n - now h (List.length (log w)) |}
          (AddonConstructor m (dirname h rp)
             (set_main (resolveMain h (pkg info)) (pkg info)) rp).
Proof.
  intros E.
  destruct (realpathSync h (mainPath h info)) as [e|rp] eqn:R.
  { destruct (initialize_cases h parent project ref info w) as (r & evs & ld & E' & Hc).
    rewrite E in E'. injection E' as <- _.
    destruct Hc as [(e' & _ & Hr & _) | [(rp & e' & R' & _) | [(rp & e' & R' & _)
      | [(rp & e' & R' & _) | (rp & a' & tl & R' & _)]]]]; congruence. }
  destruct (load h w rp) as [e|m] eqn:L.
  { exfalso. revert E. unfold load in L.
    unfold initialize, bind, get, store, modify, emit, lift, throw, ret.
    cbn [packages loaded log]. rewrite R. cbn [packages loaded log]. unfold load.
    cbn [packages loaded log]. rewrite L. discriminate. }
  destruct (initialize_loaded h parent project ref info w rp m R L) as [ld E'].
  rewrite E in E'. cbv zeta in E'.
  destruct (construct _ _ _ parent project) as [e|fr]; [discriminate|].
  destruct (fresh_initializeAddons fr) as [[e|kids]|]; [discriminate | |];
    injection E' as -> _; cbn [List.length].
  - exists rp, m, (List.length (log w) + 3 + 1).
    split; [reflexivity|]. split; [exact L|]. split; [lia | reflexivity].
  - exists rp, m, (List.length (log w) + 3 + 0).
    split; [reflexivity|]. split; [exact L|]. split; [lia | reflexivity].
Qed.

(** ** The callable variant, within its step *)




(** ** What the instances carry *)

(** X9: every instance a successful call returns has a constructor whose
    [_meta_] records a path that [fs.realpathSync] returned as [modulePath]
    and 0 as [lookupDuration]; under a clock that never runs backwards its
    [initializeIn] is not negative. *)
Theorem instances_metadata (h : host) (parent : parentObject) (project : projectObject)
    (ds : descriptors) (l : list addon) :
  monotone (now h) ->
  fst (instantiateAddons h parent project (val ds)) = inr l ->
  Forall (fun a =>
            exists meta q,
              _meta_ (constructor a) = val meta /\
              realpathSync h q = inr (modulePath meta) /\
              lookupDuration meta = 0%Z /\
              (0 <= initializeIn meta)%Z) l.
Proof.
  intros Hmono.
  destruct (instantiate_cases h parent project ds)
    as [(_ & ->) | [(_ & msg & done & ->) | [(_ & e & _ & ->) | (_ & order & _ & ->)]]];
    cbn [fst]; try discriminate.
  - intros [= <-]. constructor.
  - destruct (forEach h parent project order _) as [r w'] eqn:E. cbn [fst]. intros ->.
    refine (forEach_Forall h parent project _ _ order _ l w' E).
    intros ref info w a w1 Ha.
    destruct (initialize_success h parent project ref info w a w1 Ha)
      as (rp & m & n & R & _ & Hn & ->).
    eexists _, (mainPath h info). cbn [_meta_ set_meta modulePath lookupDuration initializeIn].
    split; [reflexivity|]. split; [exact R|]. split; [reflexivity|].
    specialize (Hmono _ _ Hn). cbn [initializeIn]. lia.
Qed.

Lemma instances_metadata_witness :
  Forall (fun a =>
            exists meta q,
              _meta_ (constructor a) = val meta /\
              realpathSync (Sample.disk [("/addons/x/index.js", Sample.fn (Sample.plain "x"))]) q
                = inr (modulePath meta) /\
              lookupDuration meta = 0%Z /\
              (0 <= initializeIn meta)%Z)
    (match fst (instantiateAddons
                  (Sample.disk [("/addons/x/index.js", Sample.fn (Sample.plain "x"))])
                  Sample.app None (val [Sample.info "x" None (Sample.config [] [])]))
     with inr l => l | inl _ => [] end).
Proof.
  apply (instances_metadata
           (Sample.disk [("/addons/x/index.js", Sample.fn (Sample.plain "x"))])
           Sample.app None [Sample.info "x" None (Sample.config [] [])]).
  - intros n m H. simpl. lia.
  - reflexivity.
Defined.

(** ** Nested initialization *)

(** X10: the [try] encloses the constructor call alone.  When the instance
    has an [initializeAddons] method and calling it throws, the step fails
    with that very error: it is not wrapped in a [SilentError] and the sink
    of the parent is not written. *)
Theorem nested_failure_propagates (h : host) (parent : parentObject) (project : projectObject)
    (ref : string) (info : addonInfo) (w : world) (rp : string) (m : moduleValue)
    (a : fresh) (e : error) :
  realpathSync h (mainPath h info) = inr rp ->
  load h w rp = inr m ->
  construct (AddonConstructor m (dirname h rp) (set_main (resolveMain h (pkg info)) (pkg info)) rp)
    (proto_root (AddonConstructor m (dirname h rp)
                   (set_main (resolveMain h (pkg info)) (pkg info)) rp))
    (proto_pkg (AddonConstructor m (dirname h rp)
                  (set_main (resolveMain h (pkg info)) (pkg info)) rp))
    parent project = inr a ->
  fresh_initializeAddons a = Some (inl e) ->
  fst (initialize h parent project ref info w) = inl e /\
  log (snd (initialize h parent project ref info w))
    = log w ++ [Realpath (mainPath h info); Load rp; New ref None; InitializeAddons ref].
Proof.
  intros R L N I.
  destruct (initialize_loaded h parent project ref info w rp m R L) as [ld E].
  rewrite E. cbv zeta. rewrite N, I. split; reflexivity.
Qed.

Lemma nested_failure_propagates_witness :
  fst (initialize
         (Sample.disk [("/addons/n/index.js",
                        Sample.fn (Sample.nested "n" (inl (Thrown "nested"))))])
         Sample.app None "n" (snd (Sample.info "n" None (Sample.config [] [])))
         {| packages := [Sample.info "n" None (Sample.config [] [])]; loaded := []; log := [] |})
  = inl (Thrown "nested") /\
  log (snd (initialize
         (Sample.disk [("/addons/n/index.js",
                        Sample.fn (Sample.nested "n" (inl (Thrown "nested"))))])
         Sample.app None "n" (snd (Sample.info "n" None (Sample.config [] [])))
         {| packages := [Sample.info "n" None (Sample.config [] [])]; loaded := []; log := [] |}))
  = [] ++ [Realpath "/addons/n/index.js"; Load "/addons/n/index.js"; New "n" None;
           InitializeAddons "n"].
Proof.
  apply (nested_failure_propagates
           (Sample.disk [("/addons/n/index.js",
                          Sample.fn (Sample.nested "n" (inl (Thrown "nested"))))])
           Sample.app None "n" (snd (Sample.info "n" None (Sample.config [] [])))
           {| packages := [Sample.info "n" None (Sample.config [] [])]; loaded := []; log := [] |}
           "/addons/n/index.js"
           (Sample.fn (Sample.nested "n" (inl (Thrown "nested"))))
           {| fresh_name := "n"; fresh_initializeAddons := Some (inl (Thrown "nested")) |}
           (Thrown "nested")); reflexivity.
Defined.

(** X11: an instance without an [initializeAddons] method is returned with
    [addons] set to the empty list, under the name its constructor gave it
    and with the constructor that built it; no nested initialization is
    attempted. *)
Theorem default_children (h : host) (parent : parentObject) (project : projectObject)
    (ref : string) (info : addonInfo) (w : world) (rp : string) (m : moduleValue)
    (a : fresh) :
  realpathSync h (mainPath h info) = inr rp ->
  load h w rp = inr m ->
  construct (AddonConstructor m (dirname h rp) (set_main (resolveMain h (pkg info)) (pkg info)) rp)
    (proto_root (AddonConstructor m (dirname h rp)
                   (set_main (resolveMain h (pkg info)) (pkg info)) rp))
    (proto_pkg (AddonConstructor m (dirname h rp)
                  (set_main (resolveMain h (pkg info)) (pkg info)) rp))
    parent project = inr a ->
  fresh_initializeAddons a = None ->
  exists instance,
    fst (initialize h parent project ref info w) = inr instance /\
    addons instance = [] /\
    addon_name instance = fresh_name a /\
    construct (constructor instance)
      = construct (AddonConstructor m (dirname h rp)
                     (set_main (resolveMain h (pkg info)) (pkg info)) rp) /\
    log (snd (initialize h parent project ref info w))
      = log w ++ [Realpath (mainPath h info); Load rp; New ref None].
Proof.
  intros R L N I.
  destruct (initialize_loaded h parent project ref info w rp m R L) as [ld E].
  rewrite E. cbv zeta. rewrite N, I. eexists. repeat split.
Qed.

Lemma default_children_witness :
  exists instance,
    fst (initialize
           (Sample.disk [("/addons/x/index.js", Sample.fn (Sample.plain "x"))])
           Sample.app None "x" (snd (Sample.info "x" None (Sample.config [] [])))
           {| packages := [Sample.info "x" None (Sample.config [] [])]; loaded := []; log := [] |})
      = inr instance /\
    addons instance = [] /\
    addon_name instance = fresh_name {| fresh_name := "x"; fresh_initializeAddons := None |} /\
    construct (constructor instance)
      = construct (AddonConstructor (Sample.fn (Sample.plain "x"))
                     (dirname (Sample.disk [("/addons/x/index.js", Sample.fn (Sample.plain "x"))])
                        "/addons/x/index.js")
                     (set_main
                        (resolveMain
                           (Sample.disk [("/addons/x/index.js", Sample.fn (Sample.plain "x"))])
                           (pkg (snd (Sample.info "x" None (Sample.config [] [])))))
                        (pkg (snd (Sample.info "x" None (Sample.config [] [])))))
                     "/addons/x/index.js") /\
    log (snd (initialize
           (Sample.disk [("/addons/x/index.js", Sample.fn (Sample.plain "x"))])
           Sample.app None "x" (snd (Sample.info "x" None (Sample.config [] [])))
           {| packages := [Sample.info "x" None (Sample.config [] [])]; loaded := []; log := [] |}))
      = [] ++ [Realpath (mainPath
                          (Sample.disk [("/addons/x/index.js", Sample.fn (Sample.plain "x"))])
                          (snd (Sample.info "x" None (Sample.config [] []))));
               Load "/addons/x/index.js"; New "x" None].
Proof.
  apply (default_children
           (Sample.disk [("/addons/x/index.js", Sample.fn (Sample.plain "x"))])
           Sample.app None "x" (snd (Sample.info "x" None (Sample.config [] [])))
           {| packages := [Sample.info "x" None (Sample.config [] [])]; loaded := []; log := [] |}
           "/addons/x/index.js" (Sample.fn (Sample.plain "x"))
           {| fresh_name := "x"; fresh_initializeAddons := None |}); reflexivity.
Defined.

(** ** Where the graph construction stops *)

Lemma addAll_stops (pre post : descriptors) (key : string) (info : addonInfo) :
  configured pre -> ember_addon (pkg info) = None ->
  forall g w,
    addAll (pre ++ (key, info) :: post) g w
    = (inl (TypeError "Cannot read properties of undefined (reading 'before')"),
       logged w (map GraphAdd (map fst pre))).
Proof.
  intros Hc Hn. induction Hc as [|[k i] rest Hk _ IH]; intros g w; simpl.
  - rewrite Hn. unfold throw, logged. now rewrite (world_eta w) at 1.
  - simpl in Hk. destruct (ember_addon (pkg i)) as [c|]; [|congruence].
    unfold bind, emit. rewrite IH. unfold logged; simpl. now rewrite <- app_assoc.
Qed.

(** X12: the descriptors are handed to the graph in mapping order, and the
    first one without an [ember-addon] entry stops the call: those ahead of
    it have been added, none after it, the graph is never resolved and no
    descriptor has been written. *)
Theorem graph_construction_stops (h : host) (parent : parentObject) (project : projectObject)
    (pre post : descriptors) (key : string) (info : addonInfo) :
  configured pre -> ember_addon (pkg info) = None ->
  instantiateAddons h parent project (val (pre ++ (key, info) :: post))
    = (inl (TypeError "Cannot read properties of undefined (reading 'before')"),
       {| packages := pre ++ (key, info) :: post; loaded := [];
          log := GraphNew :: map GraphAdd (map fst pre) |}).
Proof.
  intros Hc Hn.
  assert (exists entry rest, pre ++ (key, info) :: post = entry :: rest) as (entry & rest & Hds).
  { destruct pre as [|p0 pre']; simpl; eauto. }
  assert (forall ds, ds = entry :: rest ->
            instantiateAddons h parent project (val ds)
            = (emit GraphNew ;;;
               graph <- addAll ds DAGMap.empty ;;
               emit GraphEach ;;;
               order <- lift (DAGMap.each graph) ;;
               forEach h parent project order)
                {| packages := ds; loaded := []; log := [] |}) as Hrun.
  { intros ds ->. reflexivity. }
  rewrite (Hrun _ Hds).
  unfold bind at 1. unfold emit at 1. cbn [packages loaded log app].
  unfold bind at 1. rewrite (addAll_stops pre post key info Hc Hn). reflexivity.
Qed.

Lemma graph_construction_stops_witness :
  instantiateAddons (Sample.disk []) Sample.app None
    (val ([Sample.info "a" None (Sample.config [] [])]
            ++ Sample.info "x" None None :: [Sample.info "b" None (Sample.config [] [])]))
  = (inl (TypeError "Cannot read properties of undefined (reading 'before')"),
     {| packages := [Sample.info "a" None (Sample.config [] [])]
                      ++ Sample.info "x" None None :: [Sample.info "b" None (Sample.config [] [])];
        loaded := [];
        log := GraphNew :: map GraphAdd (map fst [Sample.info "a" None (Sample.config [] [])]) |}).
Proof.
  apply (graph_construction_stops (Sample.disk []) Sample.app None
           [Sample.info "a" None (Sample.config [] [])]
           [Sample.info "b" None (Sample.config [] [])]
           "x" (snd (Sample.info "x" None None))).
  - repeat constructor; discriminate.
  - reflexivity.
Defined.
